(** * Pepper scattering: a tearable soft lattice (src/simulation.js)

    A shallow embedding of the physics core of [src/simulation.js]: particles
    moved by Verlet integration, distance constraints relaxed iteratively with
    tearing, and short-lived radial pulses.

    Numbers.  JavaScript numbers are modelled by the real numbers of the
    Standard Library: [Math.hypot x y] is [sqrt (x*x + y*y)], [Math.exp] is
    [exp], [Math.log] is [ln], [Math.max]/[Math.min] are [Rmax]/[Rmin].
    Rounding, infinities and NaN are outside the model.  Integer settings that
    only drive loops (grid size, iteration count, break cap) are in [Z].

    Objects.  The JavaScript constraints hold references to particle objects
    that several constraints share.  Here the particles live in one list (the
    store) and a constraint holds the two positions of its endpoints in that
    list; every write of the source is a read-modify-write of the store, in
    the order of the source, so that shared endpoints behave as in the
    source.

    Ambient inputs.  [performance.now()] is an argument of the functions that
    read it, [canvas.width]/[canvas.height] are arguments, and [Math.random()]
    is a stream [random : nat -> R] read at a position kept in the state. *)

From Stdlib Require Import Reals Lra Lia ZArith String.
From stdpp Require Import base list.

Open Scope R_scope.

(** ** Settings *)

Record Settings := mkSettings {
  gridCols : Z;
  gridRows : Z;
  constraintIterations : Z;
  structuralStiffness : R;
  shearStiffness : R;
  damping : R;
  jitterAcceleration : R;
  gravityY : R;
  pulseStrength : R;
  pulseSigma : R;
  pulseHalfLifeMs : R;
  borderPadding : R;
  pepperRadius : R;
  breakThreshold : R;
  minWeakThreshold : R;
  clickTearRadius : R;
  clickInnerBreakRadius : R;
  weakenFactor : R;
  weakenDurationMs : R;
  tearImpulse : R;
  maxBreaksPerStep : Z
}.

(** The values of the source's [SETTINGS] object. *)
Definition SETTINGS : Settings := {|
  gridCols := 52;
  gridRows := 34;
  constraintIterations := 3;
  structuralStiffness := 0.35;
  shearStiffness := 0.25;
  damping := 0.0035;
  jitterAcceleration := 3.0;
  gravityY := 0.0;
  pulseStrength := 3000;
  pulseSigma := 90;
  pulseHalfLifeMs := 650;
  borderPadding := 24;
  pepperRadius := 1.9;
  breakThreshold := 1.8;
  minWeakThreshold := 1.18;
  clickTearRadius := 60;
  clickInnerBreakRadius := 24;
  weakenFactor := 0.85;
  weakenDurationMs := 450;
  tearImpulse := 36;
  maxBreaksPerStep := 200
|}.

(** ** Utility helpers *)

(** [const clamp = (v, lo, hi) => (v < lo ? lo : v > hi ? hi : v)] *)
Definition clamp (v lo hi : R) : R :=
  if Rlt_dec v lo then lo else if Rgt_dec v hi then hi else v.

(** [Math.hypot(x, y)] *)
Definition hypot (x y : R) : R := sqrt (x * x + y * y).

(** [h || 1e-6]: the right operand replaces a zero. *)
Definition orEps (h : R) : R := if Req_dec_T h 0 then 1e-6 else h.

(** [lo + Math.random() * (hi - lo)], with the random number read given. *)
Definition randRange (u lo hi : R) : R := lo + u * (hi - lo).

(** [for (let i = 0; i < n; i++)]: the values that [i] takes. *)
Definition upto (n : Z) : list Z := map Z.of_nat (seq 0 (Z.to_nat n)).

(** ** Particles *)

Record Particle := mkParticle {
  positionX : R;
  positionY : R;
  previousX : R;
  previousY : R;
  accelX : R;
  accelY : R;
  pinned : bool
}.

Definition setPositionX (x : R) (p : Particle) : Particle :=
  mkParticle x (positionY p) (previousX p) (previousY p) (accelX p) (accelY p) (pinned p).

Definition setPositionY (y : R) (p : Particle) : Particle :=
  mkParticle (positionX p) y (previousX p) (previousY p) (accelX p) (accelY p) (pinned p).

(** [new Particle(x, y, pinned)]; [u1], [u2] are the two random numbers read. *)
Definition newParticle (u1 u2 : R) (x y : R) (isPinned : bool) : Particle :=
  {| positionX := x;
     positionY := y;
     previousX := x + randRange u1 (-0.25) 0.25;
     previousY := y + randRange u2 (-0.25) 0.25;
     accelX := 0;
     accelY := 0;
     pinned := isPinned |}.

Definition addForce (ax ay : R) (p : Particle) : Particle :=
  mkParticle (positionX p) (positionY p) (previousX p) (previousY p)
             (accelX p + ax) (accelY p + ay) (pinned p).

Definition verletStep (dtSeconds dampingCoef : R) (p : Particle) : Particle :=
  if pinned p then
    {| positionX := positionX p;
       positionY := positionY p;
       previousX := positionX p;
       previousY := positionY p;
       accelX := 0;
       accelY := 0;
       pinned := pinned p |}
  else
    let nextX := positionX p + (positionX p - previousX p) * (1 - dampingCoef)
                 + accelX p * dtSeconds * dtSeconds in
    let nextY := positionY p + (positionY p - previousY p) * (1 - dampingCoef)
                 + accelY p * dtSeconds * dtSeconds in
    {| positionX := nextX;
       positionY := nextY;
       previousX := positionX p;
       previousY := positionY p;
       accelX := 0;
       accelY := 0;
       pinned := pinned p |}.

(** Writes to a particle of the store, as [this.a.positionX += d]: the
    current value is read from the store when the write happens. *)
Definition addPositionX (i : nat) (d : R) (ps : list Particle) : list Particle :=
  alter (fun p => setPositionX (positionX p + d) p) i ps.

Definition addPositionY (i : nat) (d : R) (ps : list Particle) : list Particle :=
  alter (fun p => setPositionY (positionY p + d) p) i ps.

Definition subPositionX (i : nat) (d : R) (ps : list Particle) : list Particle :=
  alter (fun p => setPositionX (positionX p - d) p) i ps.

Definition subPositionY (i : nat) (d : R) (ps : list Particle) : list Particle :=
  alter (fun p => setPositionY (positionY p - d) p) i ps.

(** ** Distance constraints *)

Record DistanceConstraint := mkConstraint {
  a : nat;
  b : nat;
  rest : R;
  stiffness : R;
  breakThresholdBase : R;
  weakUntilTs : R;
  weakThreshold : option R;
  broken : bool
}.

Definition setBroken (v : bool) (c : DistanceConstraint) : DistanceConstraint :=
  mkConstraint (a c) (b c) (rest c) (stiffness c) (breakThresholdBase c)
               (weakUntilTs c) (weakThreshold c) v.

Section Constraint.

Variable cfg : Settings.

(** [new DistanceConstraint(particleA, particleB, restLength, stiffness)] *)
Definition newConstraint (ia ib : nat) (restLength k : R) : DistanceConstraint :=
  {| a := ia;
     b := ib;
     rest := restLength;
     stiffness := k;
     breakThresholdBase := breakThreshold cfg;
     weakUntilTs := 0;
     weakThreshold := None;
     broken := false |}.

Definition getCurrentBreakThreshold (nowTs : R) (c : DistanceConstraint) : R :=
  if Rle_dec nowTs (weakUntilTs c) then
    match weakThreshold c with
    | Some w => w
    | None => breakThresholdBase c
    end
  else breakThresholdBase c.

Definition markWeak (tempThreshold untilTs : R) (c : DistanceConstraint)
  : DistanceConstraint :=
  let clamped := Rmax tempThreshold (minWeakThreshold cfg) in
  let w :=
    match weakThreshold c with
    | None => Some clamped
    | Some w0 => if Rlt_dec clamped w0 then Some clamped else Some w0
    end in
  mkConstraint (a c) (b c) (rest c) (stiffness c) (breakThresholdBase c)
               (Rmax (weakUntilTs c) untilTs) w (broken c).

(** [midpoint()], read from the store; [None] only for an endpoint that is
    not in the store, which an object reference of the source cannot be. *)
Definition midpoint (ps : list Particle) (c : DistanceConstraint) : option (R * R) :=
  match ps !! a c, ps !! b c with
  | Some pa, Some pb =>
      Some ((positionX pa + positionX pb) * 0.5, (positionY pa + positionY pb) * 0.5)
  | _, _ => None
  end.

(** [forceBreak()] and [satisfy(nowTs)] read and write the endpoints in the
    store; as in [midpoint], the branch for an endpoint that is not in the
    store stands for nothing in the source. *)
Definition forceBreak (ps : list Particle) (c : DistanceConstraint)
  : list Particle * DistanceConstraint :=
  if broken c then (ps, c)
  else
    let c' := setBroken true c in
    match ps !! a c, ps !! b c with
    | Some pa, Some pb =>
        let dx := positionX pb - positionX pa in
        let dy := positionY pb - positionY pa in
        let dist := orEps (hypot dx dy) in
        let nx := dx / dist in
        let ny := dy / dist in
        let push := tearImpulse cfg in
        if negb (pinned pa) && negb (pinned pb) then
          (addPositionY (b c) (ny * 0.5 * push)
             (addPositionX (b c) (nx * push * 0.5)
                (subPositionY (a c) (ny * 0.5 * push)
                   (subPositionX (a c) (nx * push * 0.5) ps))), c')
        else if pinned pa && negb (pinned pb) then
          (addPositionY (b c) (ny * push) (addPositionX (b c) (nx * push) ps), c')
        else if negb (pinned pa) && pinned pb then
          (subPositionY (a c) (ny * push) (subPositionX (a c) (nx * push) ps), c')
        else (ps, c')
    | _, _ => (ps, c')
    end.

Definition satisfy (nowTs : R) (ps : list Particle) (c : DistanceConstraint)
  : list Particle * DistanceConstraint * bool :=
  if broken c then (ps, c, false)
  else
    match ps !! a c, ps !! b c with
    | Some pa, Some pb =>
        let dx := positionX pb - positionX pa in
        let dy := positionY pb - positionY pa in
        let dist := orEps (hypot dx dy) in
        let threshold := getCurrentBreakThreshold nowTs c in
        if Rgt_dec dist (rest c * threshold) then
          (forceBreak ps c, false)
        else
          let diff := (dist - rest c) / dist in
          let k := stiffness c in
          let moveAX := dx * 0.5 * k * diff in
          let moveAY := dy * 0.5 * k * diff in
          if negb (pinned pa) && negb (pinned pb) then
            (subPositionY (b c) (moveAY * 1)
               (subPositionX (b c) (moveAX * 1)
                  (addPositionY (a c) (moveAY * 1)
                     (addPositionX (a c) (moveAX * 1) ps))), c, true)
          else if pinned pa && negb (pinned pb) then
            (subPositionY (b c) (dy * k * diff)
               (subPositionX (b c) (dx * k * diff) ps), c, true)
          else if negb (pinned pa) && pinned pb then
            (addPositionY (a c) (dy * k * diff)
               (addPositionX (a c) (dx * k * diff) ps), c, true)
          else (ps, c, true)
    | _, _ => (ps, c, true)
    end.

End Constraint.

(** ** Pulses *)

(** The pulse objects of [addPulse]; the fields [x], [y] of the source are
    [pulseX], [pulseY] here. *)
Record Pulse := mkPulse {
  pulseX : R;
  pulseY : R;
  strength : R;
  sigma : R;
  createdAt : R
}.

Definition Rltb (x y : R) : bool := if Rlt_dec x y then true else false.

(** ** The simulation state *)

Record Sim := mkSim {
  particles : list Particle;
  constraints : list DistanceConstraint;
  pulses : list Pulse;
  randomPos : nat
}.

Section Simulation.

Variable cfg : Settings.
Variable random : nat -> R.
Variables canvasWidth canvasHeight : R.

(** *** buildGrid *)

Definition particleAt (i j : Z) : nat := Z.to_nat (j * gridCols cfg + i).

(** [cellW] and [cellH]; for a grid of one column or one row the source
    divides by zero, which the model does not follow. *)
Definition gridCellW : R :=
  (canvasWidth - borderPadding cfg * 2) / IZR (gridCols cfg - 1).

Definition gridCellH : R :=
  (canvasHeight - borderPadding cfg * 2) / IZR (gridRows cfg - 1).

Definition isBoundary (i j : Z) : bool :=
  (i =? 0)%Z || (j =? 0)%Z || (i =? gridCols cfg - 1)%Z || (j =? gridRows cfg - 1)%Z.

(** The body of the inner particle loop: one [particles.push]. *)
Definition pushParticle (j : Z) (st : list Particle * nat) (i : Z)
  : list Particle * nat :=
  let '(acc, k) := st in
  let x := borderPadding cfg + IZR i * gridCellW in
  let y := borderPadding cfg + IZR j * gridCellH in
  (acc ++ [newParticle (random k) (random (S k)) x y (isBoundary i j)], (k + 2)%nat).

Definition buildParticles (k0 : nat) : list Particle * nat :=
  fold_left (fun st j => fold_left (pushParticle j) (upto (gridCols cfg)) st)
            (upto (gridRows cfg)) ([], k0).

(** The body of the inner constraint loop: up to four [constraints.push]. *)
Definition cellConstraints (j i : Z) : list DistanceConstraint :=
  (if (i <? gridCols cfg - 1)%Z
   then [newConstraint cfg (particleAt i j) (particleAt (i + 1) j)
                       gridCellW (structuralStiffness cfg)]
   else [])
  ++ (if (j <? gridRows cfg - 1)%Z
      then [newConstraint cfg (particleAt i j) (particleAt i (j + 1))
                          gridCellH (structuralStiffness cfg)]
      else [])
  ++ (if (i <? gridCols cfg - 1)%Z && (j <? gridRows cfg - 1)%Z
      then [newConstraint cfg (particleAt i j) (particleAt (i + 1) (j + 1))
                          (hypot gridCellW gridCellH) (shearStiffness cfg)]
      else [])
  ++ (if (0 <? i)%Z && (j <? gridRows cfg - 1)%Z
      then [newConstraint cfg (particleAt i j) (particleAt (i - 1) (j + 1))
                          (hypot gridCellW gridCellH) (shearStiffness cfg)]
      else []).

Definition buildConstraints : list DistanceConstraint :=
  flat_map (fun j => flat_map (cellConstraints j) (upto (gridCols cfg)))
           (upto (gridRows cfg)).

(** [buildGrid()]: replaces the particles and the constraints; the pulses
    stay.  The source has no [throw]: it returns normally for every
    setting. *)
Definition buildGrid (s : Sim) : Sim :=
  let '(ps, k) := buildParticles (randomPos s) in
  {| particles := ps;
     constraints := buildConstraints;
     pulses := pulses s;
     randomPos := k |}.

(** *** addPulse *)

Definition addPulse (now x y pulseStr : R) (s : Sim) : Sim :=
  {| particles := particles s;
     constraints := constraints s;
     pulses := pulses s ++ [mkPulse x y pulseStr (pulseSigma cfg) now];
     randomPos := randomPos s |}.

(** *** stepSimulation *)

(** Forces: gravity and jitter of one particle; reads two random numbers
    for a free particle. *)
Definition jitterParticle (p : Particle) (k : nat) : Particle * nat :=
  if pinned p then (p, k)
  else
    let p1 := if Req_dec_T (gravityY cfg) 0 then p else addForce 0 (gravityY cfg) p in
    let j := jitterAcceleration cfg in
    (addForce (randRange (random k) (- j) j) (randRange (random (S k)) (- j) j) p1,
     (k + 2)%nat).

Fixpoint applyJitter (ps : list Particle) (k : nat) : list Particle * nat :=
  match ps with
  | [] => ([], k)
  | p :: tl =>
      let '(p', k1) := jitterParticle p k in
      let '(tl', k2) := applyJitter tl k1 in
      (p' :: tl', k2)
  end.

(** The acceleration that pulse [pu] adds to a free particle [p]. *)
Definition pulseAccel (now : R) (pu : Pulse) (p : Particle) : R * R :=
  let halfLife := pulseHalfLifeMs cfg in
  let decayCoef := ln 2 / halfLife in
  let age := now - createdAt pu in
  let decay := exp (- decayCoef * age) in
  let base := strength pu * decay in
  let twoSigma2 := 2 * sigma pu * sigma pu in
  let dx := positionX p - pulseX pu in
  let dy := positionY p - pulseY pu in
  let r2 := dx * dx + dy * dy in
  let falloff := exp (- r2 / twoSigma2) in
  let r := sqrt r2 + 1e-6 in
  (dx / r * base * falloff, dy / r * base * falloff).

Definition pulseParticle (now : R) (pu : Pulse) (p : Particle) : Particle :=
  if pinned p then p
  else let '(ax, ay) := pulseAccel now pu p in addForce ax ay p.

Definition cullPulses (now : R) (pus : list Pulse) : list Pulse :=
  List.filter (fun pu => Rltb (now - createdAt pu) (pulseHalfLifeMs cfg * 6)) pus.

Definition applyPulses (now : R) (pus : list Pulse) (ps : list Particle)
  : list Particle :=
  fold_left (fun acc pu => map (pulseParticle now pu) acc) pus ps.

(** The bounds of the integrate loop. *)
Definition clampToCanvas (p : Particle) : Particle :=
  let p1 :=
    setPositionX (clamp (positionX p) (borderPadding cfg)
                        (canvasWidth - borderPadding cfg)) p in
  setPositionY (clamp (positionY p1) (borderPadding cfg)
                      (canvasHeight - borderPadding cfg)) p1.

Definition integrate (dtSec : R) (ps : list Particle) : list Particle :=
  map (fun p => clampToCanvas (verletStep dtSec (damping cfg) p)) ps.

(** One pass of the inner constraint loop, from the constraint at the head
    of [cs] on, with [breaks] breaks counted so far in this pass.  The
    constraints are returned in their order; after the [break] of the
    source the rest of the list is returned as it is. *)
Fixpoint relaxFrom (nowTs : R) (breaks : Z) (ps : list Particle)
         (cs : list DistanceConstraint)
  : list Particle * list DistanceConstraint :=
  match cs with
  | [] => (ps, [])
  | c :: tl =>
      if broken c then
        let '(ps', tl') := relaxFrom nowTs breaks ps tl in (ps', c :: tl')
      else
        let '(ps1, c1, ok) := satisfy cfg nowTs ps c in
        if ok then
          let '(ps', tl') := relaxFrom nowTs breaks ps1 tl in (ps', c1 :: tl')
        else if (maxBreaksPerStep cfg <=? breaks + 1)%Z then (ps1, c1 :: tl)
        else
          let '(ps', tl') := relaxFrom nowTs (breaks + 1) ps1 tl in (ps', c1 :: tl')
  end.

(** One pass: [let breaks = 0; for (let i = 0; ...) { ... }]. *)
Definition relaxPass (nowTs : R) (st : list Particle * list DistanceConstraint)
  : list Particle * list DistanceConstraint :=
  relaxFrom nowTs 0 (fst st) (snd st).

(** [for (let k = 0; k < SETTINGS.constraintIterations; k++)] *)
Definition relax (nowTs : R) (st : list Particle * list DistanceConstraint)
  : list Particle * list DistanceConstraint :=
  Nat.iter (Z.to_nat (constraintIterations cfg)) (relaxPass nowTs) st.

Definition removeBroken (cs : list DistanceConstraint) : list DistanceConstraint :=
  List.filter (fun c => negb (broken c)) cs.

(** [stepSimulation(dtMs)]; [now] and [nowTs] are its two readings of
    [performance.now()]. *)
Definition stepSimulation (dtMs now nowTs : R) (s : Sim) : Sim :=
  let dtSec := dtMs / 1000 in
  let '(ps1, k) := applyJitter (particles s) (randomPos s) in
  let pus := cullPulses now (pulses s) in
  let ps2 := applyPulses now pus ps1 in
  let ps3 := integrate dtSec ps2 in
  let '(ps4, cs4) := relax nowTs (ps3, constraints s) in
  {| particles := ps4;
     constraints := removeBroken cs4;
     pulses := pus;
     randomPos := k |}.

(** *** weakenConstraintsNear *)

(** The body of the loop of [weakenConstraintsNear] for one constraint. *)
Definition weakenOne (now x y : R) (aggressive : bool)
           (ps : list Particle) (k : nat) (c : DistanceConstraint)
  : list Particle * nat * DistanceConstraint :=
  let outer := clickTearRadius cfg in
  let inner := Rmin (clickInnerBreakRadius cfg) outer in
  let weakThr := breakThreshold cfg * weakenFactor cfg in
  if broken c then (ps, k, c)
  else
    match midpoint ps c, ps !! a c, ps !! b c with
    | Some (mx, my), Some pa, Some pb =>
        let d := hypot (mx - x) (my - y) in
        if Rle_dec d outer then
          let c1 := markWeak cfg weakThr (now + weakenDurationMs cfg) c in
          if aggressive && (if Rle_dec d inner then true else false) then
            let abx := positionX pb - positionX pa in
            let aby := positionY pb - positionY pa in
            let dist := orEps (hypot abx aby) in
            if Rgt_dec dist (rest c1 * 1.22) then
              let '(ps', c2) := forceBreak cfg ps c1 in (ps', k, c2)
            else
              let t := 1 - d / inner in
              if Rlt_dec (random k) (0.12 + 0.30 * t) then
                let '(ps', c2) := forceBreak cfg ps c1 in (ps', S k, c2)
              else (ps, S k, c1)
          else (ps, k, c1)
        else (ps, k, c)
    | _, _, _ => (ps, k, c)
    end.

Fixpoint weakenFrom (now x y : R) (aggressive : bool)
         (ps : list Particle) (k : nat) (cs : list DistanceConstraint)
  : list Particle * nat * list DistanceConstraint :=
  match cs with
  | [] => (ps, k, [])
  | c :: tl =>
      let '(ps1, k1, c1) := weakenOne now x y aggressive ps k c in
      let '(ps2, k2, tl') := weakenFrom now x y aggressive ps1 k1 tl in
      (ps2, k2, c1 :: tl')
  end.

Definition weakenConstraintsNear (now x y : R) (aggressive : bool) (s : Sim) : Sim :=
  let '(ps, k, cs) :=
    weakenFrom now x y aggressive (particles s) (randomPos s) (constraints s) in
  {| particles := ps;
     constraints := cs;
     pulses := pulses s;
     randomPos := k |}.

End Simulation.

(** ** Definitions used to state the properties *)

(** The methods that change a constraint or, through it, the store. *)
Inductive ConstraintOp :=
| OpMarkWeak (tempThreshold untilTs : R)
| OpForceBreak
| OpSatisfy (nowTs : R).

Definition runOp (cfg : Settings) (st : list Particle * DistanceConstraint)
           (op : ConstraintOp) : list Particle * DistanceConstraint :=
  match op with
  | OpMarkWeak t e => (fst st, markWeak cfg t e (snd st))
  | OpForceBreak => forceBreak cfg (fst st) (snd st)
  | OpSatisfy nowTs => fst (satisfy cfg nowTs (fst st) (snd st))
  end.

Definition runOps (cfg : Settings) (ops : list ConstraintOp)
           (st : list Particle * DistanceConstraint)
  : list Particle * DistanceConstraint :=
  fold_left (runOp cfg) ops st.

(** The constraints that the program can hold: made by the constructor and
    changed by the three methods only. *)
Inductive reachable (cfg : Settings) : DistanceConstraint -> Prop :=
| reach_new ia ib restLength k :
    reachable cfg (newConstraint cfg ia ib restLength k)
| reach_markWeak c t e :
    reachable cfg c -> reachable cfg (markWeak cfg t e c)
| reach_forceBreak c ps :
    reachable cfg c -> reachable cfg (snd (forceBreak cfg ps c))
| reach_satisfy c ps nowTs :
    reachable cfg c -> reachable cfg (snd (fst (satisfy cfg nowTs ps c))).

(** A sequence of [markWeak(threshold, expiresAt)] calls. *)
Definition applyMarks (cfg : Settings) (calls : list (R * R)) (c : DistanceConstraint)
  : DistanceConstraint :=
  fold_left (fun c' te => markWeak cfg (fst te) (snd te) c') calls c.

(** Minimum and maximum of the non-empty list [x :: xs]. *)
Definition minOf (x : R) (xs : list R) : R := fold_left Rmin xs x.
Definition maxOf (x : R) (xs : list R) : R := fold_left Rmax xs x.

(** The guarded distance between the endpoints that [satisfy] computes. *)
Definition currentDistance (pa pb : Particle) : R :=
  orEps (hypot (positionX pb - positionX pa) (positionY pb - positionY pa)).



(** A particle kept where it was: same position, same [pinned]. *)
Definition samePlace (p p' : Particle) : Prop :=
  pinned p' = pinned p /\ positionX p' = positionX p /\ positionY p' = positionY p.

(** What the program does to the whole state between two rebuilds. *)
Inductive SimOp :=
| OpStep (dtMs now nowTs : R)
| OpWeaken (now x y : R) (aggressive : bool)
| OpAddPulse (now x y pulseStr : R).

Definition runSimOp (cfg : Settings) (random : nat -> R) (canvasWidth canvasHeight : R)
           (s : Sim) (op : SimOp) : Sim :=
  match op with
  | OpStep dtMs now nowTs => stepSimulation cfg random canvasWidth canvasHeight dtMs now nowTs s
  | OpWeaken now x y aggressive => weakenConstraintsNear cfg random now x y aggressive s
  | OpAddPulse now x y pulseStr => addPulse cfg now x y pulseStr s
  end.

(** How a call of a function of the source ends. *)
Inductive Completion (A : Type) :=
| Normal (v : A)
| Throw (message : string).
Arguments Normal {A} v.
Arguments Throw {A} message.

(** [buildGrid()] as a call: the source has no [throw] and calls nothing that
    throws, so the call always returns. *)
Definition callBuildGrid (cfg : Settings) (random : nat -> R)
           (canvasWidth canvasHeight : R) (s : Sim) : Completion Sim :=
  Normal (buildGrid cfg random canvasWidth canvasHeight s).

(** The proposed threshold as [markWeak] stores it: raised to the floor. *)
Definition clampWeak (cfg : Settings) (t : R) : R := Rmax t (minWeakThreshold cfg).

(** The distance between the endpoints of a constraint in the store, without
    the guard. *)
Definition endpointDistance (ps : list Particle) (c : DistanceConstraint) : R :=
  match ps !! a c, ps !! b c with
  | Some pa, Some pb =>
      hypot (positionX pb - positionX pa) (positionY pb - positionY pa)
  | _, _ => 0
  end.

(** Settings that differ from [cfg] in the grid size only. *)
Definition withGrid (cols rows : Z) (cfg : Settings) : Settings :=
  mkSettings cols rows (constraintIterations cfg) (structuralStiffness cfg)
             (shearStiffness cfg) (damping cfg) (jitterAcceleration cfg) (gravityY cfg)
             (pulseStrength cfg) (pulseSigma cfg) (pulseHalfLifeMs cfg)
             (borderPadding cfg) (pepperRadius cfg) (breakThreshold cfg)
             (minWeakThreshold cfg) (clickTearRadius cfg) (clickInnerBreakRadius cfg)
             (weakenFactor cfg) (weakenDurationMs cfg) (tearImpulse cfg)
             (maxBreaksPerStep cfg).

(** A pinned particle kept where it was (nothing is said of a free one but
    that it stays free). *)
Definition stays (p p' : Particle) : Prop :=
  pinned p' = pinned p /\
  (pinned p = true -> positionX p' = positionX p /\ positionY p' = positionY p).


(** The particle that [buildGrid] makes for column [i] of row [j], with the
    random source at position [k]. *)
Definition gridParticle (cfg : Settings) (random : nat -> R)
           (canvasWidth canvasHeight : R) (k : nat) (i j : Z) : Particle :=
  newParticle (random k) (random (S k))
              (borderPadding cfg + IZR i * gridCellW cfg canvasWidth)
              (borderPadding cfg + IZR j * gridCellH cfg canvasHeight)
              (isBoundary cfg i j).

(** Settings that differ from [cfg] in the cap of breaks only. *)
Definition withBreakCap (cap : Z) (cfg : Settings) : Settings :=
  mkSettings (gridCols cfg) (gridRows cfg) (constraintIterations cfg)
             (structuralStiffness cfg) (shearStiffness cfg) (damping cfg)
             (jitterAcceleration cfg) (gravityY cfg) (pulseStrength cfg) (pulseSigma cfg)
             (pulseHalfLifeMs cfg) (borderPadding cfg) (pepperRadius cfg)
             (breakThreshold cfg) (minWeakThreshold cfg) (clickTearRadius cfg)
             (clickInnerBreakRadius cfg) (weakenFactor cfg) (weakenDurationMs cfg)
             (tearImpulse cfg) cap.

(** ** The main loop and the pointer (src/simulation.js, lines 375-440) *)


(** The program between two rebuilds: the simulation, the two variables of
    the main loop, the pointer flag, and the position in the stream of the
    readings of [performance.now()]. *)
Record App := mkApp {
  world : Sim;
  lastTimestamp : R;
  accumulatedMs : R;
  isPointerDown : bool;
  clockPos : nat
}.

Section MainLoop.
Variable cfg : Settings.
Variable random : nat -> R.
Variable clock : nat -> R.
Variables canvasWidth canvasHeight : R.



(** The [pointerdown] listener, with the point of the canvas given:
    [addPulse(x, y); weakenConstraintsNear(x, y, true)].  Each of the two
    reads the clock. *)
Definition pointerDown (x y : R) (app : App) : App :=
  let s1 := addPulse cfg (clock (clockPos app)) x y (pulseStrength cfg) (world app) in
  let s2 := weakenConstraintsNear cfg random (clock (S (clockPos app))) x y true s1 in
  {| world := s2;
     lastTimestamp := lastTimestamp app;
     accumulatedMs := accumulatedMs app;
     isPointerDown := true;
     clockPos := (clockPos app + 2)%nat |}.

(** The [pointermove] listener. *)
Definition pointerMove (x y : R) (app : App) : App :=
  if isPointerDown app then
    let s1 := addPulse cfg (clock (clockPos app)) x y (pulseStrength cfg * 0.5)
                       (world app) in
    let s2 := weakenConstraintsNear cfg random (clock (S (clockPos app))) x y false s1 in
    {| world := s2;
       lastTimestamp := lastTimestamp app;
       accumulatedMs := accumulatedMs app;
       isPointerDown := true;
       clockPos := (clockPos app + 2)%nat |}
  else app.

(** The [pointerup] and [pointercancel] listeners. *)
Definition pointerUp (app : App) : App :=
  {| world := world app;
     lastTimestamp := lastTimestamp app;
     accumulatedMs := accumulatedMs app;
     isPointerDown := false;
     clockPos := clockPos app |}.

End MainLoop.

(** ** More definitions used to state properties *)

(** A particle that was moved at most: everything but the position is as it
    was. *)
Definition onlyMoved (p p' : Particle) : Prop :=
  pinned p' = pinned p /\ previousX p' = previousX p /\ previousY p' = previousY p
  /\ accelX p' = accelX p /\ accelY p' = accelY p.

(** A constraint as it was, or as it was but broken. *)
Definition brokenOrSame (c c' : DistanceConstraint) : Prop :=
  c' = c \/ c' = setBroken true c.

(** The number of free particles of the store. *)
Definition freeCount (ps : list Particle) : nat :=
  length (List.filter (fun p => negb (pinned p)) ps).

(** What a step leaves of a particle: the old position as the previous one
    and no acceleration. *)
Definition stepped (p p' : Particle) : Prop :=
  pinned p' = pinned p /\ previousX p' = positionX p /\ previousY p' = positionY p
  /\ accelX p' = 0 /\ accelY p' = 0.

(** A constraint between two different particles of a store of [n]
    particles. *)
Definition attached (n : nat) (c : DistanceConstraint) : Prop :=
  (a c < n)%nat /\ (b c < n)%nat /\ a c <> b c.

(** The threshold that [weakenConstraintsNear] proposes, as stored. *)
Definition storedWeakThreshold (cfg : Settings) : R :=
  clampWeak cfg (breakThreshold cfg * weakenFactor cfg).

(** A constraint as the program holds it for a lattice of [n] particles. *)
Definition latticeConstraint (cfg : Settings) (n : nat) (c : DistanceConstraint) : Prop :=
  attached n c
  /\ breakThresholdBase c = breakThreshold cfg
  /\ (stiffness c = structuralStiffness cfg \/ stiffness c = shearStiffness cfg)
  /\ ((weakThreshold c = None /\ weakUntilTs c = 0)
      \/ weakThreshold c = Some (storedWeakThreshold cfg)).


(** ** Resizing (src/simulation.js, lines 237-248) *)

Section Resize.
Variable cfg : Settings.
Variable random : nat -> R.

(** The size that [resizeCanvasToDisplaySize] computes from
    [window.devicePixelRatio] and the client size of the canvas;
    [Math.floor] is [Int_part]. *)
Definition displaySize (devicePixelRatio clientWidth clientHeight : R) : R * R :=
  let dpr := clamp (if Req_dec_T devicePixelRatio 0 then 1 else devicePixelRatio) 1 2 in
  (IZR (Int_part (clientWidth * dpr)), IZR (Int_part (clientHeight * dpr))).

(** [resizeCanvasToDisplaySize()]; the state is the size of the canvas and
    the simulation. *)
Definition resizeCanvasToDisplaySize (devicePixelRatio clientWidth clientHeight : R)
           (st : R * R * Sim) : R * R * Sim :=
  let '(canvasWidth, canvasHeight, s) := st in
  let '(width, height) := displaySize devicePixelRatio clientWidth clientHeight in
  let rebuilt := (width, height, buildGrid cfg random width height s) in
  if Req_dec_T canvasWidth width then
    if Req_dec_T canvasHeight height then st else rebuilt
  else rebuilt.

End Resize.

(** * The candle under the jar (src/candle-jar.js) *)

Module CandleJar.

(** [window.__SIM_DEFAULTS__], or the object that stands for it. *)
Record Defaults := mkDefaults {
  candleCount : Z;
  jarDiameterPx : R;
  speedMultiplier : R
}.

Definition fallbackDefaults : Defaults :=
  {| candleCount := 3; jarDiameterPx := 320; speedMultiplier := 3 |}.

(** The fields of [world] that the simulation reads. *)
Definition worldWidth : R := 960.
Definition groundY : R := 480.

(** [Math.max(a, Math.min(b, v))] *)
Definition clamp (v lo hi : R) : R := Rmax lo (Rmin hi v).

Definition lerp (x0 x1 t : R) : R := x0 + (x1 - x0) * t.

Record Candle := mkCandle {
  x : R;
  y : R;
  height : R;
  lit : bool;
  flame : R
}.

(** [state], with the fields of [state.jar] and [state.basin] that change,
    the variable [lastTs] of the loop and the position in the stream of
    [Math.random()]. *)
Record State := mkState {
  candles : list Candle;
  jarPlaced : bool;
  jarX : R;
  jarDiameter : R;
  jarPlaceAnim : R;
  oxygenInside : R;
  temperatureInside : R;
  waterRise : R;
  isLit : bool;
  speed : R;
  time : R;
  basinWaterLevel : R;
  lastTs : R;
  randomPos : nat
}.

(** The state that the script starts with (lines 36-55, 372). *)
Definition initialState (dflt : Defaults) : State :=
  {| candles := [];
     jarPlaced := false;
     jarX := worldWidth * 0.6;
     jarDiameter := jarDiameterPx dflt;
     jarPlaceAnim := 0;
     oxygenInside := 1.0;
     temperatureInside := 1.0;
     waterRise := 0.0;
     isLit := false;
     speed := speedMultiplier dflt;
     time := 0;
     basinWaterLevel := 0.6;
     lastTs := 0;
     randomPos := 0 |}.

(** [v || d] for a number: [None] (NaN) and zero give [d]. *)
Definition orDefaultZ (v : option Z) (d : Z) : Z :=
  match v with
  | Some n => if (n =? 0)%Z then d else n
  | None => d
  end.

Definition orDefaultR (v : option R) (d : R) : R :=
  match v with
  | Some r => if Req_dec_T r 0 then d else r
  | None => d
  end.

(** The candle that [initCandles] makes at index [i]. *)
Definition newCandle (i : nat) : Candle :=
  {| x := 0; y := groundY; height := 180 + INR (i mod 2) * 10; lit := false; flame := 0 |}.

(** The loop of [layoutCandlesAround] from index [i] on. *)
Fixpoint placeFrom (i : nat) (startX spacing : R) (cs : list Candle) : list Candle :=
  match cs with
  | [] => []
  | c :: tl =>
      mkCandle (startX + INR i * spacing) (y c) (height c) (lit c) (flame c)
      :: placeFrom (S i) startX spacing tl
  end.

Definition layoutCandlesAround (centerX spacing : R) (cs : list Candle) : list Candle :=
  let n := length cs in
  let startX := centerX - ((INR n - 1) * spacing) / 2 in
  placeFrom 0 startX spacing cs.

Definition setCandles (cs : list Candle) (s : State) : State :=
  mkState cs (jarPlaced s) (jarX s) (jarDiameter s) (jarPlaceAnim s) (oxygenInside s)
          (temperatureInside s) (waterRise s) (isLit s) (speed s) (time s)
          (basinWaterLevel s) (lastTs s) (randomPos s).

(** [initCandles(count)]; [Array.from({ length: count })] has no element
    for a count that is not positive. *)
Definition initCandles (count : Z) (s : State) : State :=
  let spacing := 46 in
  let cs := map newCandle (seq 0 (Z.to_nat count)) in
  let centerX := if Req_dec_T (jarX s) 0 then worldWidth * 0.5 else jarX s in
  setCandles (layoutCandlesAround centerX spacing cs) s.

(** [reset()], with the three values parsed from the controls ([None] for
    NaN); the resize of [reset(true)] touches the canvas only. *)
Definition reset (dflt : Defaults) (count diameter : option Z) (speedValue : option R)
           (s : State) : State :=
  let s1 := mkState (candles s) (jarPlaced s) (worldWidth * 0.5) (jarDiameter s)
                    (jarPlaceAnim s) (oxygenInside s) (temperatureInside s) (waterRise s)
                    (isLit s) (speed s) (time s) (basinWaterLevel s) (lastTs s)
                    (randomPos s) in
  let s2 := initCandles (orDefaultZ count (candleCount dflt)) s1 in
  {| candles := candles s2;
     jarPlaced := false;
     jarX := jarX s2;
     jarDiameter := orDefaultR (option_map IZR diameter) (jarDiameterPx dflt);
     jarPlaceAnim := 0;
     oxygenInside := 1.0;
     temperatureInside := 1.0;
     waterRise := 0.0;
     isLit := false;
     speed := orDefaultR speedValue (speedMultiplier dflt);
     time := 0;
     basinWaterLevel := 0.6;
     lastTs := lastTs s2;
     randomPos := randomPos s2 |}.

Definition lightCandles (s : State) : State :=
  mkState (map (fun c => mkCandle (x c) (y c) (height c) true (flame c)) (candles s))
          (jarPlaced s) (jarX s) (jarDiameter s) (jarPlaceAnim s) (oxygenInside s)
          (temperatureInside s) (waterRise s) true (speed s) (time s)
          (basinWaterLevel s) (lastTs s) (randomPos s).

Definition toggleJar (s : State) : State :=
  mkState (candles s) (negb (jarPlaced s)) (jarX s) (jarDiameter s) 0 (oxygenInside s)
          (temperatureInside s) (waterRise s) (isLit s) (speed s) (time s)
          (basinWaterLevel s) (lastTs s) (randomPos s).

Section Step.
Variable random : nat -> R.

(** The body of the [forEach] of a lit scene for one candle, with the
    random number [u] read for its flicker. *)
Definition burnCandle (placed : bool) (oxygen : R) (u : R) (c : Candle) : Candle :=
  let o2Factor := clamp oxygen 0 1 in
  let flicker := 0.7 + u * 0.6 in
  let flame' := lerp (flame c) (if lit c then flicker * o2Factor else 0) 0.1 in
  let lit' :=
    if lit c && placed && (if Rle_dec oxygen 0.03 then true else false)
    then false else lit c in
  mkCandle (x c) (y c) (height c) lit' flame'.

Fixpoint burnFrom (placed : bool) (oxygen : R) (k : nat) (cs : list Candle)
  : list Candle :=
  match cs with
  | [] => []
  | c :: tl => burnCandle placed oxygen (random k) c :: burnFrom placed oxygen (S k) tl
  end.

(** The [forEach] of a scene that is not lit. *)
Definition coolCandle (c : Candle) : Candle :=
  mkCandle (x c) (y c) (height c) (lit c) (lerp (flame c) 0 0.2).

(** [step(dt)]; the readouts are not part of the state. *)
Definition step (dt : R) (s : State) : State :=
  let simDt := dt * speed s in
  let time' := time s + simDt in
  let placeAnim' :=
    if Rlt_dec (jarPlaceAnim s) 1 then
      if jarPlaced s || (if Rgt_dec (jarPlaceAnim s) 0 then true else false)
      then clamp (jarPlaceAnim s + simDt * 2.5) 0 1
      else jarPlaceAnim s
    else jarPlaceAnim s in
  let activeFlames := INR (length (List.filter lit (candles s))) in
  let oxygenUsePerFlame := 0.08 in
  let candles' :=
    if isLit s then burnFrom (jarPlaced s) (oxygenInside s) (randomPos s) (candles s)
    else map coolCandle (candles s) in
  let randomPos' :=
    if isLit s then (randomPos s + length (candles s))%nat else randomPos s in
  let oxygen' :=
    if isLit s then
      if jarPlaced s then
        let jarFactor := clamp (320 / (jarDiameter s + 1e-5)) 0.5 1.5 in
        clamp (oxygenInside s - activeFlames * oxygenUsePerFlame * simDt * jarFactor) 0 1
      else clamp (lerp (oxygenInside s) 1 (0.02 * simDt)) 0 1
    else oxygenInside s in
  let heatInput := if jarPlaced s then activeFlames * 0.02 else 0 in
  let temperature' :=
    clamp (temperatureInside s
           + (heatInput - 0.015 * (temperatureInside s - 1)) * simDt) 0.8 1.25 in
  let targetRise :=
    if jarPlaced s then
      let oxygenLoss := 1 - oxygen' in
      let coolingDrop := clamp (1 - temperature') 0 0.3 in
      clamp (oxygenLoss * 0.6 + coolingDrop * 0.8) 0 1
    else 0 in
  let waterRise' := lerp (waterRise s) targetRise (1.2 * simDt) in
  let basinDrain := Rmax 0 (waterRise' - 0) * 0.05 * simDt in
  let basin' :=
    if jarPlaced s then clamp (basinWaterLevel s - basinDrain) 0.05 1
    else basinWaterLevel s in
  {| candles := candles';
     jarPlaced := jarPlaced s;
     jarX := jarX s;
     jarDiameter := jarDiameter s;
     jarPlaceAnim := placeAnim';
     oxygenInside := oxygen';
     temperatureInside := temperature';
     waterRise := waterRise';
     isLit := isLit s;
     speed := speed s;
     time := time';
     basinWaterLevel := basin';
     lastTs := lastTs s;
     randomPos := randomPos' |}.

(** [tick(ts)], up to [render()] and the next frame. *)
Definition tick (ts : R) (s : State) : State :=
  let last0 := if Req_dec_T (lastTs s) 0 then ts else lastTs s in
  let dt := Rmin 0.05 ((ts - last0) / 1000) in
  let s1 := mkState (candles s) (jarPlaced s) (jarX s) (jarDiameter s) (jarPlaceAnim s)
                    (oxygenInside s) (temperatureInside s) (waterRise s) (isLit s)
                    (speed s) (time s) (basinWaterLevel s) ts (randomPos s) in
  step dt s1.

End Step.

(** What holds of the numbers of every state of the program. *)
Definition inRange (s : State) : Prop :=
  0 <= oxygenInside s <= 1
  /\ 0.8 <= temperatureInside s <= 1.25
  /\ 0.05 <= basinWaterLevel s <= 1
  /\ 0 <= jarPlaceAnim s <= 1
  /\ 0 <= waterRise s <= 1.

(** The number of candles that burn. *)
Definition litCount (s : State) : nat := length (List.filter lit (candles s)).

(** A candle that a step has left in its place. *)
Definition sameCandle (c c' : Candle) : Prop :=
  x c' = x c /\ y c' = y c /\ height c' = height c.

(** The test under which the [forEach] of [step] puts a burning candle out. *)
Definition smothered (s : State) : bool :=
  isLit s && jarPlaced s && (if Rle_dec (oxygenInside s) 0.03 then true else false).

(** [n] calls of [step(dt)]. *)
Fixpoint steps (random : nat -> R) (dt : R) (n : nat) (s : State) : State :=
  match n with
  | O => s
  | S n' => steps random dt n' (step random dt s)
  end.

End CandleJar.

(** * Properties *)

(** ** Numbers and particles *)

Lemma hypot_nonneg x y : 0 <= hypot x y.
Proof. apply sqrt_pos. Qed.

Lemma hypot_scale x y s : 0 <= s -> hypot (x * s) (y * s) = s * hypot x y.
Proof.
  intros Hs. unfold hypot.
  replace (x * s * (x * s) + y * s * (y * s)) with ((s * s) * (x * x + y * y)) by ring.
  rewrite sqrt_mult; [|nra|nra].
  by rewrite sqrt_square.
Qed.

Lemma hypot_axis x : 0 <= x -> hypot (x - 0) (0 - 0) = x.
Proof.
  intros Hx. unfold hypot.
  replace ((x - 0) * (x - 0) + (0 - 0) * (0 - 0)) with (x * x) by ring.
  by apply sqrt_square.
Qed.

Lemma orEps_pos h : 0 < h -> orEps h = h.
Proof. intros Hh. unfold orEps. destruct (Req_dec_T h 0); [lra|done]. Qed.

Lemma clamp_between v lo hi : lo <= hi -> lo <= clamp v lo hi <= hi.
Proof.
  intros Hle. unfold clamp.
  destruct (Rlt_dec v lo); [lra|]. destruct (Rgt_dec v hi); lra.
Qed.


Lemma samePlace_refl (p : Particle) : samePlace p p.
Proof. by repeat split. Qed.

Lemma samePlace_trans (p1 p2 p3 : Particle) :
  samePlace p1 p2 -> samePlace p2 p3 -> samePlace p1 p3.
Proof. unfold samePlace. intros (?&?&?) (?&?&?). repeat split; congruence. Qed.

(** ** Weakening *)

Section MarkWeak.

Variable cfg : Settings.
Implicit Types (c : DistanceConstraint) (t e w : R).

Lemma markWeak_threshold t e c :
  weakThreshold (markWeak cfg t e c) =
  Some (match weakThreshold c with
        | None => clampWeak cfg t
        | Some w => Rmin w (clampWeak cfg t)
        end).
Proof.
  unfold markWeak, clampWeak; simpl.
  destruct (weakThreshold c) as [w|]; [|done].
  destruct (Rlt_dec _ _) as [Hlt|Hge]; f_equal.
  - rewrite Rmin_right; lra.
  - rewrite Rmin_left; lra.
Qed.

Lemma markWeak_until t e c :
  weakUntilTs (markWeak cfg t e c) = Rmax (weakUntilTs c) e.
Proof. done. Qed.

Lemma markWeak_broken t e c : broken (markWeak cfg t e c) = broken c.
Proof. done. Qed.

Lemma markWeak_base t e c :
  breakThresholdBase (markWeak cfg t e c) = breakThresholdBase c.
Proof. done. Qed.

Lemma applyMarks_threshold calls c w :
  weakThreshold c = Some w ->
  weakThreshold (applyMarks cfg calls c)
  = Some (minOf w (map (fun te => clampWeak cfg (fst te)) calls)).
Proof.
  revert c w. induction calls as [|[t e] calls IH]; intros c w Hw; [done|].
  simpl. erewrite IH; [done|].
  by rewrite markWeak_threshold, Hw.
Qed.

Lemma applyMarks_until calls c :
  weakUntilTs (applyMarks cfg calls c) = maxOf (weakUntilTs c) (map snd calls).
Proof.
  revert c. induction calls as [|[t e] calls IH]; intros c; [done|].
  simpl. by rewrite IH, markWeak_until.
Qed.

Lemma maxOf_Rmax x y l : maxOf (Rmax x y) l = Rmax x (maxOf y l).
Proof.
  revert y. induction l as [|z l IH]; intros y; [done|].
  unfold maxOf in *. simpl. rewrite <- IH. f_equal.
  symmetry; apply Rmax_assoc.
Qed.

(** Claim C3.  After the calls [markWeak t0 e0], then [calls], on a new
    constraint, the stored weak threshold is the minimum of the proposed
    thresholds, each raised to the floor first, and the stored expiry is the
    maximum of the proposed expiries (expiries are timestamps: the largest
    one is not negative, the expiry of a new constraint being 0).  Two calls
    with thresholds t1 < t2 and expiries e1 > e2, with t1 at or above the
    floor, leave in either order the threshold t1, the expiry e1 and, up to
    e1, the effective threshold t1. *)
Theorem markWeak_composition ia ib restLength k :
  let fresh := newConstraint cfg ia ib restLength k in
  (forall t0 e0 (calls : list (R * R)),
      0 <= maxOf e0 (map snd calls) ->
      let c := applyMarks cfg ((t0, e0) :: calls) fresh in
      weakThreshold c
      = Some (minOf (clampWeak cfg t0) (map (fun te => clampWeak cfg (fst te)) calls))
      /\ weakUntilTs c = maxOf e0 (map snd calls))
  /\ (forall t1 t2 e1 e2 nowTs,
        t1 < t2 -> e2 < e1 -> minWeakThreshold cfg <= t1 -> 0 <= e1 -> nowTs <= e1 ->
        let c12 := markWeak cfg t2 e2 (markWeak cfg t1 e1 fresh) in
        let c21 := markWeak cfg t1 e1 (markWeak cfg t2 e2 fresh) in
        (weakThreshold c12 = Some t1 /\ weakUntilTs c12 = e1
         /\ getCurrentBreakThreshold nowTs c12 = t1)
        /\ (weakThreshold c21 = Some t1 /\ weakUntilTs c21 = e1
            /\ getCurrentBreakThreshold nowTs c21 = t1)).
Proof.
  intros fresh. split.
  - intros t0 e0 calls Hmax c. subst c. simpl.
    split.
    + erewrite applyMarks_threshold; [done|].
      by rewrite markWeak_threshold.
    + rewrite applyMarks_until, markWeak_until. simpl.
      rewrite maxOf_Rmax. apply Rmax_right, Hmax.
  - intros t1 t2 e1 e2 nowTs Ht He Hfloor He1 Hnow c12 c21.
    assert (Hc1 : clampWeak cfg t1 = t1) by (apply Rmax_left; lra).
    assert (Hc2 : t1 <= clampWeak cfg t2)
      by (unfold clampWeak; pose proof (Rmax_l t2 (minWeakThreshold cfg)); lra).
    assert (H12 : weakThreshold c12 = Some t1 /\ weakUntilTs c12 = e1).
    { subst c12. rewrite !markWeak_threshold, !markWeak_until. simpl.
      rewrite Hc1. split.
      - f_equal. apply Rmin_left, Hc2.
      - rewrite (Rmax_right 0 e1) by lra. apply Rmax_left; lra. }
    assert (H21 : weakThreshold c21 = Some t1 /\ weakUntilTs c21 = e1).
    { subst c21. rewrite !markWeak_threshold, !markWeak_until. simpl.
      rewrite Hc1. split.
      - f_equal. apply Rmin_right, Hc2.
      - rewrite <- Rmax_assoc. rewrite (Rmax_right e2 e1) by lra.
        apply Rmax_right; lra. }
    unfold getCurrentBreakThreshold.
    destruct H12 as [-> ->], H21 as [-> ->].
    destruct (Rle_dec nowTs e1); [done|lra].
Qed.
End MarkWeak.

Lemma markWeak_composition_witness :
  let fresh := newConstraint SETTINGS 0 1 10 0.35 in
  let c12 := markWeak SETTINGS 1.5 400 (markWeak SETTINGS 1.3 500 fresh) in
  let c21 := markWeak SETTINGS 1.3 500 (markWeak SETTINGS 1.5 400 fresh) in
  (weakThreshold c12 = Some 1.3 /\ weakUntilTs c12 = 500
   /\ getCurrentBreakThreshold 450 c12 = 1.3)
  /\ (weakThreshold c21 = Some 1.3 /\ weakUntilTs c21 = 500
      /\ getCurrentBreakThreshold 450 c21 = 1.3).
Proof.
  intros fresh c12 c21.
  destruct (markWeak_composition SETTINGS 0%nat 1%nat 10 0.35) as [_ H].
  apply (H 1.3 1.5 500 400 450); simpl; lra.
Defined.

(** ** Breaking *)

Section Breaking.
Variable cfg : Settings.
Implicit Types (c : DistanceConstraint) (ps : list Particle).

Lemma forceBreak_broken ps c : broken c = true -> forceBreak cfg ps c = (ps, c).
Proof. unfold forceBreak. by intros ->. Qed.

Lemma forceBreak_constraint ps c :
  snd (forceBreak cfg ps c) = setBroken true c.
Proof.
  unfold forceBreak. destruct (broken c) eqn:Hb.
  - simpl. destruct c; simpl in *; by subst.
  - destruct (ps !! a c), (ps !! b c); try done.
    repeat (case_match; try done).
Qed.

Lemma satisfy_broken nowTs ps c :
  broken c = true -> satisfy cfg nowTs ps c = (ps, c, false).
Proof. unfold satisfy. by intros ->. Qed.

(** [satisfy] changes nothing of the constraint but, on a break, [broken]. *)
Lemma satisfy_constraint nowTs ps c :
  snd (fst (satisfy cfg nowTs ps c)) = c \/
  snd (fst (satisfy cfg nowTs ps c)) = setBroken true c.
Proof.
  unfold satisfy. destruct (broken c); [by left|].
  destruct (ps !! a c), (ps !! b c); try (by left).
  destruct (Rgt_dec _ _).
  - right. simpl. apply forceBreak_constraint.
  - left. repeat (case_match; try done).
Qed.

(** What [satisfy] decides, for a constraint whose endpoints are in the
    store. *)
Lemma satisfy_breaks nowTs ps c pa pb :
  broken c = false -> ps !! a c = Some pa -> ps !! b c = Some pb ->
  currentDistance pa pb > rest c * getCurrentBreakThreshold nowTs c ->
  satisfy cfg nowTs ps c = (forceBreak cfg ps c, false).
Proof.
  intros Hb Ha Hpb Hd. unfold satisfy. rewrite Hb, Ha, Hpb.
  unfold currentDistance in Hd. by destruct (Rgt_dec _ _).
Qed.

Lemma satisfy_holds nowTs ps c pa pb :
  broken c = false -> ps !! a c = Some pa -> ps !! b c = Some pb ->
  ~ currentDistance pa pb > rest c * getCurrentBreakThreshold nowTs c ->
  snd (fst (satisfy cfg nowTs ps c)) = c /\ snd (satisfy cfg nowTs ps c) = true.
Proof.
  intros Hb Ha Hpb Hd. unfold satisfy. rewrite Hb, Ha, Hpb.
  unfold currentDistance in Hd. destruct (Rgt_dec _ _); [done|].
  repeat (case_match; try done).
Qed.

Lemma removeBroken_In c cs : In c (removeBroken cs) -> broken c = false.
Proof.
  unfold removeBroken. rewrite filter_In. intros [_ H].
  by destruct (broken c).
Qed.

(** The invariant of the constraints of the program. *)
Lemma reachable_inv c :
  reachable cfg c ->
  breakThresholdBase c = breakThreshold cfg
  /\ (forall w, weakThreshold c = Some w -> minWeakThreshold cfg <= w).
Proof.
  induction 1 as [ia ib L k|c t e _ [IHb IHw]|c ps _ [IHb IHw]|c ps nowTs _ [IHb IHw]].
  - by split.
  - split; [done|]. intros w. rewrite markWeak_threshold.
    intros [= <-]. pose proof (Rmax_r t (minWeakThreshold cfg)).
    destruct (weakThreshold c) as [w0|] eqn:Hw0; unfold clampWeak; [|done].
    apply Rmin_glb; auto.
  - rewrite forceBreak_constraint. by split.
  - destruct (satisfy_constraint nowTs ps c) as [-> | ->]; by split.
Qed.

Lemma threshold_floor nowTs c :
  minWeakThreshold cfg <= breakThreshold cfg ->
  reachable cfg c ->
  minWeakThreshold cfg <= getCurrentBreakThreshold nowTs c.
Proof.
  intros Hcfg Hr. destruct (reachable_inv c Hr) as [Hb Hw].
  unfold getCurrentBreakThreshold.
  destruct (Rle_dec _ _); [|lra].
  destruct (weakThreshold c) as [w|]; [by apply Hw|lra].
Qed.

(** Claim C1.  A constraint of the program that is not broken and whose
    endpoints are in the store breaks in [satisfy] at time [nowTs] exactly
    when the (guarded) distance of its endpoints exceeds the rest length
    times the effective threshold; [satisfy] returns [false] in exactly that
    case.  The effective threshold is the stored weak threshold while [nowTs]
    is within the weak expiry and the base threshold otherwise, and it is
    never below the floor [minWeakThreshold] (the floor is not above the base
    threshold in the settings).  A constraint broken this way is skipped by
    [satisfy] from then on and removed by [removeBroken]. *)
Theorem fracture_threshold c ps nowTs pa pb :
  minWeakThreshold cfg <= breakThreshold cfg ->
  reachable cfg c ->
  broken c = false ->
  ps !! a c = Some pa -> ps !! b c = Some pb ->
  let T := getCurrentBreakThreshold nowTs c in
  let c' := snd (fst (satisfy cfg nowTs ps c)) in
  (broken c' = true <-> currentDistance pa pb > rest c * T)
  /\ (snd (satisfy cfg nowTs ps c) = false <-> currentDistance pa pb > rest c * T)
  /\ (forall w, weakThreshold c = Some w -> nowTs <= weakUntilTs c -> T = w)
  /\ (weakUntilTs c < nowTs -> T = breakThresholdBase c)
  /\ (weakThreshold c = None -> T = breakThresholdBase c)
  /\ minWeakThreshold cfg <= T
  /\ (broken c' = true ->
      (forall nowTs' ps', satisfy cfg nowTs' ps' c' = (ps', c', false))
      /\ (forall cs, ~ In c' (removeBroken cs))).
Proof.
  intros Hcfg Hr Hb Ha Hpb T c'.
  assert (Hiff : broken c' = true <-> currentDistance pa pb > rest c * T).
  { subst c'. destruct (Rgt_dec (currentDistance pa pb) (rest c * T)) as [Hd|Hd].
    - rewrite (satisfy_breaks nowTs ps c pa pb) by done. simpl.
      by rewrite forceBreak_constraint.
    - destruct (satisfy_holds nowTs ps c pa pb Hb Ha Hpb Hd) as [-> _].
      rewrite Hb. split; [done | intros Hgt; contradiction]. }
  split; [done|]. split.
  { destruct (Rgt_dec (currentDistance pa pb) (rest c * T)) as [Hd|Hd].
    - by rewrite (satisfy_breaks nowTs ps c pa pb).
    - destruct (satisfy_holds nowTs ps c pa pb Hb Ha Hpb Hd) as [_ ->].
      split; [done | intros Hgt; contradiction]. }
  subst T. unfold getCurrentBreakThreshold at 1 2 3.
  repeat split.
  - intros w -> Hn. by destruct (Rle_dec _ _).
  - intros Hn. destruct (Rle_dec _ _); [lra|done].
  - intros ->. by destruct (Rle_dec _ _).
  - by apply threshold_floor.
  - intros nowTs' ps'. by apply satisfy_broken.
  - intros cs Hin. apply removeBroken_In in Hin. congruence.
Qed.
End Breaking.

Lemma fracture_threshold_witness :
  let c := newConstraint SETTINGS 0 1 10 0.35 in
  let pa := mkParticle 0 0 0 0 0 0 false in
  let pb := mkParticle 19 0 19 0 0 0 false in
  let ps := [pa; pb] in
  broken (snd (fst (satisfy SETTINGS 0 ps c))) = true
  /\ minWeakThreshold SETTINGS <= getCurrentBreakThreshold 0 c.
Proof.
  intros c pa pb ps.
  destruct (fracture_threshold SETTINGS c ps 0 pa pb) as (H1 & _ & _ & _ & _ & H6 & _).
  - simpl. lra.
  - apply reach_new.
  - reflexivity.
  - reflexivity.
  - reflexivity.
  - split; [|exact H6]. apply H1.
    unfold currentDistance, getCurrentBreakThreshold. simpl.
    rewrite hypot_axis, orEps_pos by lra.
    destruct (Rle_dec 0 0); lra.
Defined.

(** ** The life of a constraint *)

Section Lifetime.
Variable cfg : Settings.
Implicit Types (c : DistanceConstraint) (ps : list Particle) (op : ConstraintOp).

Lemma runOps_cons op ops ps c :
  runOps cfg (op :: ops) (ps, c) = runOps cfg ops (runOp cfg (ps, c) op).
Proof. done. Qed.

(** A broken constraint stays broken and no longer touches the store. *)
Lemma runOp_broken op ps c :
  broken c = true ->
  fst (runOp cfg (ps, c) op) = ps /\ broken (snd (runOp cfg (ps, c) op)) = true.
Proof.
  intros Hb. destruct op as [t e| |nowTs]; cbn [runOp fst snd].
  - done.
  - by rewrite forceBreak_broken.
  - by rewrite satisfy_broken.
Qed.

Lemma runOps_broken ops ps c :
  broken c = true ->
  fst (runOps cfg ops (ps, c)) = ps /\ broken (snd (runOps cfg ops (ps, c))) = true.
Proof.
  revert ps c. induction ops as [|op ops IH]; intros ps c Hb; [done|].
  rewrite runOps_cons.
  destruct (runOp_broken op ps c Hb) as [Hps Hb'].
  destruct (runOp cfg (ps, c) op) as [ps1 c1]; simpl in *; subst ps1.
  by apply IH.
Qed.

(** The stored weak threshold after one method call. *)
Lemma runOp_weakThreshold op ps c w :
  weakThreshold c = Some w ->
  exists w', weakThreshold (snd (runOp cfg (ps, c) op)) = Some w' /\ w' <= w.
Proof.
  intros Hw. destruct op as [t e| |nowTs]; cbn [runOp fst snd].
  - rewrite markWeak_threshold, Hw. eexists; split; [done|]. apply Rmin_l.
  - rewrite forceBreak_constraint. simpl. exists w. split; [done|lra].
  - exists w. split; [|lra].
    by destruct (satisfy_constraint cfg nowTs ps c) as [-> | ->].
Qed.

Lemma runOps_weakThreshold ops ps c w :
  weakThreshold c = Some w ->
  exists w', weakThreshold (snd (runOps cfg ops (ps, c))) = Some w' /\ w' <= w.
Proof.
  revert ps c w. induction ops as [|op ops IH]; intros ps c w Hw.
  - exists w. split; [done|lra].
  - rewrite runOps_cons.
    destruct (runOp_weakThreshold op ps c w Hw) as (w1 & Hw1 & Hle1).
    destruct (runOp cfg (ps, c) op) as [ps1 c1]; simpl in *.
    destruct (IH ps1 c1 w1 Hw1) as (w2 & Hw2 & Hle2).
    exists w2. split; [done|lra].
Qed.

(** Claim C9.  [forceBreak] on a broken constraint returns at once and
    changes nothing; after [forceBreak] the constraint is broken; a second
    [forceBreak] changes nothing more; and whatever methods are called on
    the constraint afterwards, the store stays as the first [forceBreak]
    left it and the constraint stays broken. *)
Theorem forceBreak_idempotent ps c :
  (broken c = true -> forceBreak cfg ps c = (ps, c))
  /\ broken (snd (forceBreak cfg ps c)) = true
  /\ (let r := forceBreak cfg ps c in forceBreak cfg (fst r) (snd r) = r)
  /\ (forall ops,
        let r := forceBreak cfg ps c in
        fst (runOps cfg ops r) = fst r /\ broken (snd (runOps cfg ops r)) = true).
Proof.
  assert (Hb : broken (snd (forceBreak cfg ps c)) = true)
    by by rewrite forceBreak_constraint.
  split; [apply forceBreak_broken|]. split; [done|]. split.
  - intros r. subst r. destruct (forceBreak cfg ps c) as [ps1 c1] eqn:E.
    simpl in *. by apply forceBreak_broken.
  - intros ops r. subst r. destruct (forceBreak cfg ps c) as [ps1 c1].
    simpl in *. by apply runOps_broken.
Qed.

(** Claim C10.  After the weak expiry the base threshold is the effective
    one; no method clears or raises a stored weak threshold: after any
    sequence of calls there is still one, not above the old one; and a later
    [markWeak], even one that proposes a higher threshold, with an expiry
    not before [nowTs], makes the stored lower threshold the effective one
    again, up to the new expiry. *)
Theorem weakThreshold_never_cleared :
  (forall c nowTs,
      weakUntilTs c < nowTs ->
      getCurrentBreakThreshold nowTs c = breakThresholdBase c)
  /\ (forall ops ps c w,
        weakThreshold c = Some w ->
        exists w', weakThreshold (snd (runOps cfg ops (ps, c))) = Some w' /\ w' <= w)
  /\ (forall c w t e nowTs,
        weakThreshold c = Some w ->
        weakUntilTs c < nowTs ->
        nowTs <= e ->
        w <= clampWeak cfg t ->
        let c' := markWeak cfg t e c in
        weakThreshold c' = Some w
        /\ weakUntilTs c' = e
        /\ getCurrentBreakThreshold nowTs c' = w).
Proof.
  split; [|split].
  - intros c nowTs Hexp. unfold getCurrentBreakThreshold.
    destruct (Rle_dec _ _); [lra|done].
  - apply runOps_weakThreshold.
  - intros c w t e nowTs Hw Hexp Hnow Hle c'.
    assert (H1 : weakThreshold c' = Some w).
    { subst c'. rewrite markWeak_threshold, Hw. f_equal. by apply Rmin_left. }
    assert (H2 : weakUntilTs c' = e).
    { subst c'. rewrite markWeak_until. apply Rmax_right. lra. }
    split; [done|]. split; [done|].
    unfold getCurrentBreakThreshold. rewrite H1, H2.
    destruct (Rle_dec _ _); [done|lra].
Qed.
End Lifetime.

Lemma forceBreak_idempotent_witness :
  let c := setBroken true (newConstraint SETTINGS 0 1 10 0.35) in
  let ps := [mkParticle 0 0 0 0 0 0 false; mkParticle 20 0 20 0 0 0 false] in
  forceBreak SETTINGS ps c = (ps, c).
Proof.
  intros c ps.
  destruct (forceBreak_idempotent SETTINGS ps c) as (H & _).
  apply H. reflexivity.
Defined.

Lemma weakThreshold_never_cleared_witness :
  let c := markWeak SETTINGS 1.3 500 (newConstraint SETTINGS 0 1 10 0.35) in
  let c' := markWeak SETTINGS 1.7 1450 c in
  getCurrentBreakThreshold 900 c = 1.8
  /\ weakThreshold c' = Some 1.3
  /\ weakUntilTs c' = 1450
  /\ getCurrentBreakThreshold 1000 c' = 1.3.
Proof.
  intros c c'.
  destruct (weakThreshold_never_cleared SETTINGS) as (H1 & _ & H3).
  assert (Hw : weakThreshold c = Some 1.3).
  { unfold c. rewrite markWeak_threshold. simpl. f_equal. unfold clampWeak. simpl.
    apply Rmax_left. lra. }
  assert (Hu : weakUntilTs c = 500).
  { unfold c. rewrite markWeak_until. simpl. apply Rmax_right. lra. }
  split.
  - rewrite H1; [reflexivity|]. rewrite Hu. lra.
  - apply (H3 c 1.3 1.7 1450 1000).
    + exact Hw.
    + rewrite Hu. lra.
    + lra.
    + unfold clampWeak. simpl. rewrite Rmax_left; lra.
Defined.

(** ** Integration *)

Section Integration.
Variable cfg : Settings.
Variables canvasWidth canvasHeight : R.
Implicit Types (p : Particle) (ps : list Particle).

Lemma verletStep_pinned dt d p :
  pinned p = true ->
  verletStep dt d p
  = mkParticle (positionX p) (positionY p) (positionX p) (positionY p) 0 0 true.
Proof. unfold verletStep. by intros ->. Qed.

Lemma verletStep_free dt d p :
  pinned p = false ->
  verletStep dt d p
  = mkParticle
      (positionX p + (positionX p - previousX p) * (1 - d) + accelX p * dt * dt)
      (positionY p + (positionY p - previousY p) * (1 - d) + accelY p * dt * dt)
      (positionX p) (positionY p) 0 0 false.
Proof. unfold verletStep. by intros ->. Qed.

Lemma integrate_lookup dt ps i :
  integrate cfg canvasWidth canvasHeight dt ps !! i
  = (fun p => clampToCanvas cfg canvasWidth canvasHeight
                (verletStep dt (damping cfg) p)) <$> ps !! i.
Proof. unfold integrate. apply list_lookup_fmap. Qed.

(** Claim C2.  The integrate loop gives every particle of the store the
    result of [verletStep] with its position clamped: a free particle goes
    to position + (position - previous) * (1 - damping) + accel * dt^2, a
    pinned one keeps its position; in both cases the previous position
    becomes the old position and the acceleration becomes zero; then each
    coordinate is clamped to [pad, size - pad], so it lies in that interval
    whenever the interval is not empty. *)
Theorem integrate_verlet_then_clamp dt ps i p :
  ps !! i = Some p ->
  let pad := borderPadding cfg in
  let q := verletStep dt (damping cfg) p in
  exists p',
    integrate cfg canvasWidth canvasHeight dt ps !! i = Some p'
    /\ (pinned p = false ->
        positionX q = positionX p + (positionX p - previousX p) * (1 - damping cfg)
                      + accelX p * (dt * dt)
        /\ positionY q = positionY p + (positionY p - previousY p) * (1 - damping cfg)
                         + accelY p * (dt * dt))
    /\ (pinned p = true -> positionX q = positionX p /\ positionY q = positionY p)
    /\ positionX p' = clamp (positionX q) pad (canvasWidth - pad)
    /\ positionY p' = clamp (positionY q) pad (canvasHeight - pad)
    /\ previousX p' = positionX p /\ previousY p' = positionY p
    /\ accelX p' = 0 /\ accelY p' = 0
    /\ pinned p' = pinned p
    /\ (pad <= canvasWidth - pad -> pad <= positionX p' <= canvasWidth - pad)
    /\ (pad <= canvasHeight - pad -> pad <= positionY p' <= canvasHeight - pad).
Proof.
  intros Hp pad q. eexists. split.
  { rewrite integrate_lookup, Hp. reflexivity. }
  subst q pad. destruct (pinned p) eqn:Hpin.
  - rewrite verletStep_pinned by done. simpl.
    repeat split; try done; try (by apply clamp_between).
  - rewrite verletStep_free by done. simpl.
    repeat split; try done; try lra; try (by apply clamp_between).
Qed.
End Integration.

Lemma integrate_verlet_then_clamp_witness :
  let p := mkParticle 100 100 99 100 6 0 false in
  exists p',
    integrate SETTINGS 800 600 (1 / 60) [p] !! 0%nat = Some p'
    /\ previousX p' = 100 /\ accelX p' = 0
    /\ 24 <= positionX p' <= 800 - 24.
Proof.
  intros p.
  destruct (integrate_verlet_then_clamp SETTINGS 800 600 (1 / 60) [p] 0%nat p)
    as (p' & H1 & _ & _ & _ & _ & H6 & _ & H8 & _ & _ & H11 & _).
  - reflexivity.
  - exists p'. repeat split; try done; apply H11; simpl; lra.
Defined.

(** ** Relaxation of one constraint *)

Section Relaxation.
Variable cfg : Settings.
Implicit Types (c : DistanceConstraint) (ps : list Particle) (p : Particle).

(** The store after the four writes of a correction or of a tear split
    between two different endpoints. *)
Lemma lookup_two_moves (f1 f2 f3 f4 : Particle -> Particle) ps ia ib pa pb :
  ia <> ib -> ps !! ia = Some pa -> ps !! ib = Some pb ->
  let ps' := alter f4 ib (alter f3 ib (alter f2 ia (alter f1 ia ps))) in
  ps' !! ia = Some (f2 (f1 pa)) /\ ps' !! ib = Some (f4 (f3 pb)).
Proof.
  intros Hne Ha Hb ps'. subst ps'. split.
  - rewrite !list_lookup_alter_ne by done.
    by rewrite !list_lookup_alter_eq, Ha.
  - rewrite !list_lookup_alter_eq.
    rewrite !list_lookup_alter_ne by done.
    by rewrite Hb.
Qed.

(** One correction of a constraint between two different free particles,
    stretched but not beyond its break threshold. *)
Lemma satisfy_free_step nowTs ps c pa pb :
  a c <> b c -> ps !! a c = Some pa -> ps !! b c = Some pb ->
  pinned pa = false -> pinned pb = false -> broken c = false ->
  0 < stiffness c <= 1 -> 0 < rest c ->
  rest c <= endpointDistance ps c ->
  endpointDistance ps c <= rest c * getCurrentBreakThreshold nowTs c ->
  let dx := positionX pb - positionX pa in
  let dy := positionY pb - positionY pa in
  let d := endpointDistance ps c in
  let f := stiffness c * ((d - rest c) / d) in
  exists ps' pa' pb',
    satisfy cfg nowTs ps c = (ps', c, true)
    /\ ps' !! a c = Some pa' /\ ps' !! b c = Some pb'
    /\ pinned pa' = false /\ pinned pb' = false
    /\ positionX pa' = positionX pa + dx * f / 2
    /\ positionY pa' = positionY pa + dy * f / 2
    /\ positionX pb' = positionX pb - dx * f / 2
    /\ positionY pb' = positionY pb - dy * f / 2
    /\ endpointDistance ps' c - rest c = (1 - stiffness c) * (d - rest c).
Proof.
  intros Hne Ha Hb Hfa Hfb Hbr Hk Hrest Hlo Hhi dx dy d f.
  assert (Hd : d = hypot dx dy).
  { subst d dx dy. unfold endpointDistance. by rewrite Ha, Hb. }
  assert (Hdpos : 0 < d) by (subst d; lra).
  unfold satisfy. rewrite Hbr, Ha, Hb, Hfa, Hfb. cbn [negb andb].
  fold dx dy. rewrite <- Hd. rewrite (orEps_pos d Hdpos).
  destruct (Rgt_dec d (rest c * getCurrentBreakThreshold nowTs c)) as [Hgt|_];
    [subst d; lra|].
  unfold addPositionX, addPositionY, subPositionX, subPositionY.
  match goal with
  | |- context [alter ?f4 (b c) (alter ?f3 (b c) (alter ?f2 (a c) (alter ?f1 (a c) ps)))] =>
      destruct (lookup_two_moves f1 f2 f3 f4 ps (a c) (b c) pa pb Hne Ha Hb) as [Ha' Hb']
  end.
  eexists _, _, _. split; [reflexivity|].
  split; [exact Ha'|]. split; [exact Hb'|].
  cbn [pinned positionX positionY setPositionX setPositionY].
  split; [done|]. split; [done|].
  subst f.
  split; [lra|]. split; [lra|]. split; [lra|]. split; [lra|].
  unfold endpointDistance. rewrite Ha', Hb'.
  cbn [pinned positionX positionY setPositionX setPositionY].
  set (s := 1 - stiffness c * ((d - rest c) / d)).
  assert (Hs : s * d = rest c + (1 - stiffness c) * (d - rest c)).
  { subst s. field. lra. }
  assert (Hs0 : 0 <= s).
  { assert (0 <= s * d) by nra. 
    destruct (Rle_dec 0 s) as [|Hn]; [done|]. exfalso. nra. }
  replace (positionX pb - dx * 0.5 * stiffness c * ((d - rest c) / d) * 1
           - (positionX pa + dx * 0.5 * stiffness c * ((d - rest c) / d) * 1))
    with (dx * s) by (subst s dx; lra).
  replace (positionY pb - dy * 0.5 * stiffness c * ((d - rest c) / d) * 1
           - (positionY pa + dy * 0.5 * stiffness c * ((d - rest c) / d) * 1))
    with (dy * s) by (subst s dy; lra).
  rewrite hypot_scale by done. rewrite <- Hd. lra.
Qed.

Lemma relaxPass_single nowTs ps c ps' :
  broken c = false -> satisfy cfg nowTs ps c = (ps', c, true) ->
  relaxPass cfg nowTs (ps, [c]) = (ps', [c]).
Proof. intros Hb Hs. unfold relaxPass. simpl. by rewrite Hb, Hs. Qed.

(** What [n] passes over the single constraint [c] keep true. *)
Lemma relax_single_inv nowTs ps c pa pb n :
  a c <> b c -> ps !! a c = Some pa -> ps !! b c = Some pb ->
  pinned pa = false -> pinned pb = false -> broken c = false ->
  0 < stiffness c <= 1 -> 0 < rest c ->
  rest c <= endpointDistance ps c ->
  endpointDistance ps c <= rest c * getCurrentBreakThreshold nowTs c ->
  let st := Nat.iter n (relaxPass cfg nowTs) (ps, [c]) in
  snd st = [c]
  /\ (exists qa qb, fst st !! a c = Some qa /\ fst st !! b c = Some qb
                    /\ pinned qa = false /\ pinned qb = false)
  /\ endpointDistance (fst st) c - rest c
     = (1 - stiffness c) ^ n * (endpointDistance ps c - rest c).
Proof.
  intros Hne Ha Hb Hfa Hfb Hbr Hk Hrest Hlo Hhi.
  induction n as [|n IH]; intros st.
  - subst st. simpl. split; [done|]. split; [by exists pa, pb|lra].
  - subst st. rewrite Nat.iter_succ.
    destruct IH as (Hcs & (qa & qb & Hqa & Hqb & Hfqa & Hfqb) & Hgap).
    destruct (Nat.iter n (relaxPass cfg nowTs) (ps, [c])) as [psn csn].
    simpl in Hcs, Hqa, Hqb, Hgap. subst csn.
    assert (Hpow : 0 <= (1 - stiffness c) ^ n <= 1).
    { split; [apply pow_le; lra|].
      pose proof (pow_incr (1 - stiffness c) 1 n) as Hi.
      rewrite pow1 in Hi. apply Hi. lra. }
    assert (Hg0 : 0 <= (1 - stiffness c) ^ n * (endpointDistance ps c - rest c))
      by (apply Rmult_le_pos; lra).
    assert (Hg1 : (1 - stiffness c) ^ n * (endpointDistance ps c - rest c)
                  <= 1 * (endpointDistance ps c - rest c))
      by (apply Rmult_le_compat_r; lra).
    assert (Hlo' : rest c <= endpointDistance psn c) by lra.
    assert (Hhi' : endpointDistance psn c
                   <= rest c * getCurrentBreakThreshold nowTs c) by lra.
    destruct (satisfy_free_step nowTs psn c qa qb Hne Hqa Hqb Hfqa Hfqb Hbr Hk
                Hrest Hlo' Hhi')
      as (ps' & qa' & qb' & Hs & Hqa' & Hqb' & Hfa' & Hfb' & _ & _ & _ & _ & Hgap').
    rewrite (relaxPass_single nowTs psn c ps' Hbr Hs). simpl.
    split; [done|]. split; [by exists qa', qb'|].
    rewrite Hgap', Hgap. ring.
Qed.

(** Claim C6.  For one constraint between two different free particles,
    with stiffness in (0,1], stretched beyond its rest length but not beyond
    its break threshold: a pass moves endpoint [a] by half of
    (dx,dy) * stiffness * (d - rest) / d and endpoint [b] by the opposite
    half; the constraint is never broken; after [n] passes the gap
    distance - rest is (1 - stiffness)^n times the first gap, so each pass
    multiplies the gap by 1 - stiffness, the gap never grows, stays
    non-negative and tends to zero. *)
Theorem relaxation_contracts nowTs ps c pa pb :
  a c <> b c -> ps !! a c = Some pa -> ps !! b c = Some pb ->
  pinned pa = false -> pinned pb = false -> broken c = false ->
  0 < stiffness c <= 1 -> 0 < rest c ->
  rest c < endpointDistance ps c ->
  endpointDistance ps c <= rest c * getCurrentBreakThreshold nowTs c ->
  let dx := positionX pb - positionX pa in
  let dy := positionY pb - positionY pa in
  let d := endpointDistance ps c in
  let f := stiffness c * ((d - rest c) / d) in
  let gap n := endpointDistance (fst (Nat.iter n (relaxPass cfg nowTs) (ps, [c]))) c
               - rest c in
  (exists pa' pb',
      fst (relaxPass cfg nowTs (ps, [c])) !! a c = Some pa'
      /\ fst (relaxPass cfg nowTs (ps, [c])) !! b c = Some pb'
      /\ positionX pa' = positionX pa + dx * f / 2
      /\ positionY pa' = positionY pa + dy * f / 2
      /\ positionX pb' = positionX pb - dx * f / 2
      /\ positionY pb' = positionY pb - dy * f / 2)
  /\ (forall n, snd (Nat.iter n (relaxPass cfg nowTs) (ps, [c])) = [c])
  /\ (forall n, gap n = (1 - stiffness c) ^ n * (d - rest c))
  /\ (forall n, gap (S n) = (1 - stiffness c) * gap n)
  /\ (forall n, 0 <= gap (S n) <= gap n)
  /\ (forall eps, 0 < eps -> exists N, forall n, (N <= n)%nat -> Rabs (gap n) < eps).
Proof.
  intros Hne Ha Hb Hfa Hfb Hbr Hk Hrest Hlo Hhi dx dy d f gap.
  assert (Hlo' : rest c <= endpointDistance ps c) by lra.
  pose proof (fun n => relax_single_inv nowTs ps c pa pb n Hne Ha Hb Hfa Hfb Hbr Hk
                         Hrest Hlo' Hhi) as Hinv.
  cbv zeta in Hinv.
  assert (Hgap : forall n, gap n = (1 - stiffness c) ^ n * (d - rest c)).
  { intros n. subst gap d. by destruct (Hinv n) as (_ & _ & ->). }
  assert (Hpow : forall n, 0 <= (1 - stiffness c) ^ n) by (intros n; apply pow_le; lra).
  split; [|split; [|split; [|split; [|split]]]].
  - destruct (satisfy_free_step nowTs ps c pa pb Hne Ha Hb Hfa Hfb Hbr Hk Hrest Hlo' Hhi)
      as (ps' & pa' & pb' & Hs & Ha' & Hb' & _ & _ & Hax & Hay & Hbx & Hby & _).
    rewrite (relaxPass_single nowTs ps c ps' Hbr Hs). simpl.
    exists pa', pb'. by repeat split.
  - intros n. by destruct (Hinv n) as (-> & _).
  - exact Hgap.
  - intros n. rewrite !Hgap. simpl. ring.
  - intros n. rewrite !Hgap. simpl. specialize (Hpow n).
    assert (0 <= (1 - stiffness c) ^ n * (d - rest c))
      by (apply Rmult_le_pos; subst d; lra).
    nra.
  - intros eps Heps.
    assert (Hd : 0 < d - rest c) by (subst d; lra).
    destruct (pow_lt_1_zero (1 - stiffness c)) with (y := eps / (d - rest c))
      as [N HN].
    + apply Rabs_def1; lra.
    + by apply Rdiv_lt_0_compat.
    + exists N. intros n Hn. rewrite Hgap.
      rewrite Rabs_mult, (Rabs_pos_eq (d - rest c)) by lra.
      specialize (HN n Hn).
      apply Rmult_lt_compat_r with (r := d - rest c) in HN; [|done].
      replace (eps / (d - rest c) * (d - rest c)) with eps in HN by (field; lra).
      done.
Qed.
End Relaxation.

Lemma relaxation_contracts_witness :
  let c := newConstraint SETTINGS 0 1 10 0.35 in
  let pa := mkParticle 0 0 0 0 0 0 false in
  let pb := mkParticle 15 0 15 0 0 0 false in
  let ps := [pa; pb] in
  endpointDistance (fst (Nat.iter 1 (relaxPass SETTINGS 0) (ps, [c]))) c - rest c
  = (1 - stiffness c) ^ 1 * (endpointDistance ps c - rest c).
Proof.
  intros c pa pb ps.
  assert (Hd : endpointDistance ps c = 15).
  { unfold endpointDistance. simpl. apply hypot_axis. lra. }
  destruct (relaxation_contracts SETTINGS 0 ps c pa pb) as (_ & _ & H & _).
  - simpl. lia.
  - reflexivity.
  - reflexivity.
  - reflexivity.
  - reflexivity.
  - reflexivity.
  - simpl. lra.
  - simpl. lra.
  - rewrite Hd. simpl. lra.
  - rewrite Hd. unfold getCurrentBreakThreshold. simpl.
    destruct (Rle_dec 0 0); lra.
  - apply (H 1%nat).
Defined.

(** ** One relaxation pass *)

Section Pass.
Variable cfg : Settings.
Implicit Types (c : DistanceConstraint) (cs : list DistanceConstraint)
         (ps : list Particle) (breaks : Z).





End Pass.


(** Two stretched constraints between pinned particles and a cap of one
    break: a pass breaks the first and leaves the second for the next
    pass. *)
Example relaxPass_cap_of_one :
  let cfg := withBreakCap 1 SETTINGS in
  let ps := [mkParticle 0 0 0 0 0 0 true; mkParticle 100 0 100 0 0 0 true] in
  let c1 := newConstraint cfg 0 1 10 0.35 in
  let c2 := newConstraint cfg 0 1 20 0.25 in
  relaxPass cfg 0 (ps, [c1; c2]) = (ps, [setBroken true c1; c2])
  /\ relaxPass cfg 0 (ps, [setBroken true c1; c2])
     = (ps, [setBroken true c1; setBroken true c2])
  /\ removeBroken [setBroken true c1; c2] = [c2].
Proof.
  intros cfg ps c1 c2.
  assert (Hbreak : forall c, a c = 0%nat -> b c = 1%nat -> broken c = false ->
                             weakThreshold c = None -> breakThresholdBase c = 1.8 ->
                             rest c <= 20 ->
                             satisfy cfg 0 ps c = (ps, setBroken true c, false)).
  { intros c Ha Hb Hbr Hw Hbase Hrest.
    erewrite satisfy_breaks; [| done | by rewrite Ha | by rewrite Hb |].
    - unfold forceBreak. rewrite Hbr, Ha, Hb. reflexivity.
    - unfold currentDistance, getCurrentBreakThreshold. simpl.
      rewrite hypot_axis, orEps_pos by lra. rewrite Hw, Hbase.
      destruct (Rle_dec 0 (weakUntilTs c)); nra. }
  split; [|split].
  - unfold relaxPass. simpl. rewrite (Hbreak c1) by (simpl; try done; lra). reflexivity.
  - unfold relaxPass. simpl. rewrite (Hbreak c2) by (simpl; try done; lra). reflexivity.
  - reflexivity.
Qed.

(** ** Building the lattice *)

Section Build.
Variable cfg : Settings.
Variable random : nat -> R.
Variables canvasWidth canvasHeight : R.

Lemma upto_nonpos n : (n <= 0)%Z -> upto n = [].
Proof. intros Hn. unfold upto. by replace (Z.to_nat n) with 0%nat by lia. Qed.

Lemma fold_left_skip {A B} (l : list B) (st : A) : fold_left (fun st' _ => st') l st = st.
Proof. by induction l. Qed.

Lemma flat_map_nothing {A B} (l : list A) : flat_map (fun _ => @nil B) l = [].
Proof. by induction l. Qed.

Lemma buildParticles_degenerate k0 :
  (gridCols cfg <= 0 \/ gridRows cfg <= 0)%Z ->
  buildParticles cfg random canvasWidth canvasHeight k0 = ([], k0).
Proof.
  unfold buildParticles. intros [Hc|Hr].
  - rewrite (upto_nonpos (gridCols cfg)) by done. simpl. apply fold_left_skip.
  - by rewrite (upto_nonpos (gridRows cfg)).
Qed.

Lemma buildConstraints_degenerate :
  (gridCols cfg <= 0 \/ gridRows cfg <= 0)%Z ->
  buildConstraints cfg canvasWidth canvasHeight = [].
Proof.
  unfold buildConstraints. intros [Hc|Hr].
  - rewrite (upto_nonpos (gridCols cfg)) by done. simpl. apply flat_map_nothing.
  - by rewrite (upto_nonpos (gridRows cfg)).
Qed.

(** Claim C8, as amended.  With zero or negative columns or rows [buildGrid]
    returns normally, with no particle and no constraint (the pulses and the
    random source are as before): it raises no configuration error. *)
Theorem buildGrid_degenerate_returns_empty s :
  (gridCols cfg <= 0 \/ gridRows cfg <= 0)%Z ->
  callBuildGrid cfg random canvasWidth canvasHeight s
  = Normal {| particles := []; constraints := [];
              pulses := pulses s; randomPos := randomPos s |}.
Proof.
  intros Hdeg. unfold callBuildGrid, buildGrid.
  by rewrite buildParticles_degenerate, buildConstraints_degenerate.
Qed.
End Build.

Lemma buildGrid_zero_grid_no_error :
  callBuildGrid (withGrid 0 (-3) SETTINGS) (fun _ => 0) 800 600 (mkSim [] [] [] 0)
  = Normal (mkSim [] [] [] 0).
Proof. reflexivity. Qed.

Lemma buildGrid_degenerate_returns_empty_witness :
  callBuildGrid (withGrid 0 34 SETTINGS) (fun _ => 0) 800 600 (mkSim [] [] [] 0)
  = Normal (mkSim [] [] [] 0).
Proof.
  apply (buildGrid_degenerate_returns_empty (withGrid 0 34 SETTINGS) (fun _ => 0) 800 600
           (mkSim [] [] [] 0)).
  left. simpl. lia.
Defined.

(** ** The particles of the lattice *)

Section Lattice.
Variable cfg : Settings.
Variable random : nat -> R.
Variables canvasWidth canvasHeight : R.

(** The inner loop, from column [s] on, for [m] columns: it keeps what is
    in the store and appends one particle for each column. *)
Lemma pushRow_spec j m : forall s acc k,
  let r := fold_left (pushParticle cfg random canvasWidth canvasHeight j)
                     (map Z.of_nat (seq s m)) (acc, k) in
  snd r = (k + 2 * m)%nat
  /\ length (fst r) = (length acc + m)%nat
  /\ (forall n x, acc !! n = Some x -> fst r !! n = Some x)
  /\ (forall t, (t < m)%nat ->
                fst r !! (length acc + t)%nat
                = Some (gridParticle cfg random canvasWidth canvasHeight
                          (k + 2 * t)%nat (Z.of_nat (s + t)) j)).
Proof.
  induction m as [|m IH]; intros s acc k r.
  - subst r. simpl. split; [lia|]. split; [lia|]. split; [done|]. intros t Ht. lia.
  - subst r. cbn [seq map fold_left].
    set (p := gridParticle cfg random canvasWidth canvasHeight k (Z.of_nat s) j).
    assert (Hpush : pushParticle cfg random canvasWidth canvasHeight j (acc, k) (Z.of_nat s)
                    = (acc ++ [p], (k + 2)%nat)) by reflexivity.
    rewrite Hpush.
    specialize (IH (S s) (acc ++ [p]) (k + 2)%nat).
    cbv zeta in IH. destruct IH as (Hk & Hlen & Hkeep & Hnew).
    rewrite length_app in Hlen, Hnew. simpl in Hlen, Hnew.
    split; [lia|]. split; [lia|]. split.
    + intros n x Hn. apply Hkeep. by apply lookup_app_l_Some.
    + intros [|t] Ht.
      * rewrite !Nat.add_0_r. replace (k + 2 * 0)%nat with k by lia.
        apply Hkeep. rewrite lookup_app_r by lia.
        rewrite Nat.sub_diag. done.
      * replace (length acc + S t)%nat with (length acc + 1 + t)%nat by lia.
        rewrite Hnew by lia. f_equal. f_equal; [lia|]. f_equal. lia.
Qed.

(** The outer loop, from row [s] on, for [m] rows of [C] columns. *)
Lemma pushRows_spec m : forall s acc k,
  let C := Z.to_nat (gridCols cfg) in
  let r := fold_left (fun st j =>
                        fold_left (pushParticle cfg random canvasWidth canvasHeight j)
                                  (upto (gridCols cfg)) st)
                     (map Z.of_nat (seq s m)) (acc, k) in
  snd r = (k + 2 * (m * C))%nat
  /\ length (fst r) = (length acc + m * C)%nat
  /\ (forall n x, acc !! n = Some x -> fst r !! n = Some x)
  /\ (forall u t, (u < m)%nat -> (t < C)%nat ->
                  fst r !! (length acc + (u * C + t))%nat
                  = Some (gridParticle cfg random canvasWidth canvasHeight
                            (k + 2 * (u * C + t))%nat (Z.of_nat t) (Z.of_nat (s + u)))).
Proof.
  induction m as [|m IH]; intros s acc k C r.
  - subst r. simpl. split; [lia|]. split; [lia|]. split; [done|]. intros u t Hu. lia.
  - subst r. cbn [seq map fold_left].
    pose proof (pushRow_spec (Z.of_nat s) C 0%nat acc k) as Hrow. cbv zeta in Hrow.
    change (map Z.of_nat (seq 0 C)) with (upto (gridCols cfg)) in Hrow.
    destruct Hrow as (Hk1 & Hlen1 & Hkeep1 & Hnew1).
    destruct (fold_left (pushParticle cfg random canvasWidth canvasHeight (Z.of_nat s))
                        (upto (gridCols cfg)) (acc, k))
      as [acc1 k1]. simpl in Hk1, Hlen1, Hkeep1, Hnew1.
    specialize (IH (S s) acc1 k1). cbv zeta in IH. fold C in IH.
    destruct IH as (Hk & Hlen & Hkeep & Hnew).
    assert (HS : forall x, (S x * C = C + x * C)%nat) by (intros x; lia).
    rewrite HS.
    split; [lia|]. split; [lia|]. split; [by auto|].
    intros [|u] t Hu Ht.
    + simpl. apply Hkeep. rewrite Hnew1 by done.
      rewrite Nat.add_0_r. f_equal. f_equal. lia.
    + rewrite HS.
      replace (length acc + (C + u * C + t))%nat
        with (length acc1 + (u * C + t))%nat by lia.
      rewrite Hnew by lia. f_equal. f_equal; [lia|]. f_equal. lia.
Qed.





End Lattice.

(** ** Pulses *)

Section PulseForce.
Variable cfg : Settings.
Variable random : nat -> R.
Variables canvasWidth canvasHeight : R.
Implicit Types (p : Particle) (ps : list Particle) (pu : Pulse).




(** Forces change accelerations only. *)
Lemma jitterParticle_place p k : samePlace p (fst (jitterParticle cfg random p k)).
Proof.
  unfold jitterParticle. destruct (pinned p) eqn:Hp; [apply samePlace_refl|].
  simpl. by destruct (Req_dec_T _ _).
Qed.

Lemma pulseParticle_place now pu p : samePlace p (pulseParticle cfg now pu p).
Proof.
  unfold pulseParticle. destruct (pinned p); [apply samePlace_refl|].
  by destruct (pulseAccel cfg now pu p).
Qed.

Lemma applyJitter_place ps : forall k, Forall2 samePlace ps (fst (applyJitter cfg random ps k)).
Proof.
  induction ps as [|p tl IH]; intros k; [constructor|].
  simpl. pose proof (jitterParticle_place p k) as Hp.
  destruct (jitterParticle cfg random p k) as [p' k1].
  specialize (IH k1). destruct (applyJitter cfg random tl k1) as [tl' k2].
  by constructor.
Qed.

Lemma applyPulses_place now pus : forall ps, Forall2 samePlace ps (applyPulses cfg now pus ps).
Proof.
  induction pus as [|pu pus IH]; intros ps.
  - apply Forall_Forall2_diag, Forall_forall. intros x _. apply samePlace_refl.
  - simpl. eapply Forall2_trans; [apply samePlace_trans| |apply IH].
    apply Forall2_fmap_r, Forall_Forall2_diag, Forall_forall.
    intros x _. apply pulseParticle_place.
Qed.


Lemma cullPulses_app now pus1 pus2 :
  cullPulses cfg now (pus1 ++ pus2) = cullPulses cfg now pus1 ++ cullPulses cfg now pus2.
Proof. unfold cullPulses. apply List.filter_app. Qed.




End PulseForce.



(** ** Pinned particles *)

Section Pinned.
Variable cfg : Settings.
Variable random : nat -> R.
Variables canvasWidth canvasHeight : R.
Implicit Types (p : Particle) (ps : list Particle) (c : DistanceConstraint).

Lemma stays_refl p : stays p p.
Proof. by split. Qed.

Lemma stays_trans p1 p2 p3 : stays p1 p2 -> stays p2 p3 -> stays p1 p3.
Proof.
  intros [Hp12 H12] [Hp23 H23]. split; [congruence|].
  intros Hp. destruct (H12 Hp) as [Hx Hy].
  assert (Hp2 : pinned p2 = true) by congruence.
  destruct (H23 Hp2) as [Hx' Hy']. split; congruence.
Qed.


Lemma stays_all_refl ps : Forall2 stays ps ps.
Proof. apply Forall_Forall2_diag, Forall_forall. intros p _. apply stays_refl. Qed.

Lemma stays_all_trans ps1 ps2 ps3 :
  Forall2 stays ps1 ps2 -> Forall2 stays ps2 ps3 -> Forall2 stays ps1 ps3.
Proof. apply Forall2_trans, stays_trans. Qed.

(** A write to a free particle of the store. *)
Lemma stays_write (f : Particle -> Particle) ps0 ps i p0 :
  (forall q, pinned (f q) = pinned q) ->
  ps0 !! i = Some p0 -> pinned p0 = false ->
  Forall2 stays ps0 ps -> Forall2 stays ps0 (alter f i ps).
Proof.
  intros Hf Hp0 Hfree Hst. apply Forall2_alter_r; [done|].
  intros x y Hx _ [Hpin _]. rewrite Hp0 in Hx. injection Hx as <-.
  split; [by rewrite Hf|]. intros Hp. congruence.
Qed.

Lemma stays_addPositionX ps0 ps i d p0 :
  ps0 !! i = Some p0 -> pinned p0 = false ->
  Forall2 stays ps0 ps -> Forall2 stays ps0 (addPositionX i d ps).
Proof. by apply stays_write. Qed.

Lemma stays_addPositionY ps0 ps i d p0 :
  ps0 !! i = Some p0 -> pinned p0 = false ->
  Forall2 stays ps0 ps -> Forall2 stays ps0 (addPositionY i d ps).
Proof. by apply stays_write. Qed.

Lemma stays_subPositionX ps0 ps i d p0 :
  ps0 !! i = Some p0 -> pinned p0 = false ->
  Forall2 stays ps0 ps -> Forall2 stays ps0 (subPositionX i d ps).
Proof. by apply stays_write. Qed.

Lemma stays_subPositionY ps0 ps i d p0 :
  ps0 !! i = Some p0 -> pinned p0 = false ->
  Forall2 stays ps0 ps -> Forall2 stays ps0 (subPositionY i d ps).
Proof. by apply stays_write. Qed.

Create HintDb stays.
#[local] Hint Resolve stays_all_refl stays_addPositionX stays_addPositionY
     stays_subPositionX stays_subPositionY : stays.

Lemma forceBreak_stays ps c : Forall2 stays ps (fst (forceBreak cfg ps c)).
Proof.
  unfold forceBreak. destruct (broken c); [apply stays_all_refl|].
  destruct (ps !! a c) as [pa|] eqn:Ha; [|apply stays_all_refl].
  destruct (ps !! b c) as [pb|] eqn:Hb; [|apply stays_all_refl].
  destruct (pinned pa) eqn:Hpa, (pinned pb) eqn:Hpb; simpl; eauto 6 with stays.
Qed.





Lemma weakenOne_stays now x y aggressive ps k c :
  Forall2 stays ps (fst (fst (weakenOne cfg random now x y aggressive ps k c))).
Proof.
  unfold weakenOne. destruct (broken c); [apply stays_all_refl|].
  destruct (midpoint ps c) as [[mx my]|]; [|apply stays_all_refl].
  destruct (ps !! a c); [|apply stays_all_refl].
  destruct (ps !! b c); [|apply stays_all_refl].
  destruct (Rle_dec _ _); [|apply stays_all_refl].
  destruct (aggressive && _); [|apply stays_all_refl].
  set (c1 := markWeak cfg _ _ c).
  pose proof (forceBreak_stays ps c1) as Hf.
  destruct (forceBreak cfg ps c1) as [ps' c2]. simpl in Hf.
  destruct (Rgt_dec _ _); [done|].
  destruct (Rlt_dec _ _); [done|apply stays_all_refl].
Qed.

Lemma weakenFrom_stays now x y aggressive cs : forall ps k,
  Forall2 stays ps (fst (fst (weakenFrom cfg random now x y aggressive ps k cs))).
Proof.
  induction cs as [|c tl IH]; intros ps k; [apply stays_all_refl|].
  simpl. pose proof (weakenOne_stays now x y aggressive ps k c) as H1.
  destruct (weakenOne cfg random now x y aggressive ps k c) as [[ps1 k1] c1].
  specialize (IH ps1 k1).
  destruct (weakenFrom cfg random now x y aggressive ps1 k1 tl) as [[ps2 k2] tl'].
  simpl in *. by eapply stays_all_trans.
Qed.










Lemma weakenConstraintsNear_stays now x y aggressive s :
  Forall2 stays (particles s)
          (particles (weakenConstraintsNear cfg random now x y aggressive s)).
Proof.
  unfold weakenConstraintsNear.
  pose proof (weakenFrom_stays now x y aggressive (constraints s) (particles s)
                (randomPos s)) as H.
  by destruct (weakenFrom cfg random now x y aggressive (particles s) (randomPos s)
                 (constraints s)) as [[ps k] cs].
Qed.




End Pinned.



(** * Further properties of the code *)

(** ** How weakenings compose *)

Section MarkWeakAlgebra.
Variable cfg : Settings.
Implicit Types (c : DistanceConstraint) (t e : R).

Lemma constraint_eq c c' :
  a c = a c' -> b c = b c' -> rest c = rest c' -> stiffness c = stiffness c' ->
  breakThresholdBase c = breakThresholdBase c' -> weakUntilTs c = weakUntilTs c' ->
  weakThreshold c = weakThreshold c' -> broken c = broken c' -> c = c'.
Proof. destruct c, c'. simpl. by intros -> -> -> -> -> -> -> ->. Qed.

(** Extra X1.  [markWeak] calls commute on any constraint, a call repeated
    changes nothing more, and no call touches the endpoints, the rest
    length, the stiffness, the base threshold or [broken]. *)
Theorem markWeak_commutes_and_repeats c t1 e1 t2 e2 :
  markWeak cfg t1 e1 (markWeak cfg t2 e2 c) = markWeak cfg t2 e2 (markWeak cfg t1 e1 c)
  /\ markWeak cfg t1 e1 (markWeak cfg t1 e1 c) = markWeak cfg t1 e1 c
  /\ a (markWeak cfg t1 e1 c) = a c /\ b (markWeak cfg t1 e1 c) = b c
  /\ rest (markWeak cfg t1 e1 c) = rest c
  /\ stiffness (markWeak cfg t1 e1 c) = stiffness c
  /\ breakThresholdBase (markWeak cfg t1 e1 c) = breakThresholdBase c
  /\ broken (markWeak cfg t1 e1 c) = broken c.
Proof.
  split; [|split; [|by repeat split]].
  - apply constraint_eq; try done.
    + rewrite !markWeak_until. unfold Rmax. repeat destruct (Rle_dec _ _); lra.
    + rewrite !markWeak_threshold. f_equal.
      destruct (weakThreshold c) as [w|];
        unfold Rmin; repeat destruct (Rle_dec _ _); lra.
  - apply constraint_eq; try done.
    + rewrite !markWeak_until. unfold Rmax. repeat destruct (Rle_dec _ _); lra.
    + rewrite !markWeak_threshold. f_equal.
      destruct (weakThreshold c) as [w|];
        unfold Rmin; repeat destruct (Rle_dec _ _); lra.
Qed.
End MarkWeakAlgebra.

(** ** Corrections and tears of one constraint *)

Section OneConstraint.
Variable cfg : Settings.
Implicit Types (c : DistanceConstraint) (ps : list Particle) (p : Particle).

Ltac store_lookups :=
  unfold addPositionX, addPositionY, subPositionX, subPositionY;
  repeat (rewrite list_lookup_alter_eq || rewrite list_lookup_alter_ne by done).

(** The distance of two endpoints whose separation is scaled by [s]. *)
Lemma endpointDistance_scaled ps ps' c pa pb pa' pb' s :
  ps !! a c = Some pa -> ps !! b c = Some pb ->
  ps' !! a c = Some pa' -> ps' !! b c = Some pb' ->
  0 <= s ->
  positionX pb' - positionX pa' = (positionX pb - positionX pa) * s ->
  positionY pb' - positionY pa' = (positionY pb - positionY pa) * s ->
  endpointDistance ps' c = s * endpointDistance ps c.
Proof.
  intros Ha Hb Ha' Hb' Hs Hx Hy. unfold endpointDistance.
  rewrite Ha, Hb, Ha', Hb', Hx, Hy. by apply hypot_scale.
Qed.

(** Extra X2.  A correction of a constraint between two different
    particles, one of them at least free, whose endpoints are apart but not
    beyond the break threshold, stretched or compressed: the constraint is
    not broken, a pinned endpoint and every other particle stay as they
    are, and the gap distance - rest is multiplied by 1 - stiffness. *)
Theorem satisfy_corrects_toward_rest nowTs ps c pa pb :
  a c <> b c -> ps !! a c = Some pa -> ps !! b c = Some pb ->
  pinned pa && pinned pb = false -> broken c = false ->
  0 < stiffness c <= 1 -> 0 < rest c ->
  0 < endpointDistance ps c ->
  endpointDistance ps c <= rest c * getCurrentBreakThreshold nowTs c ->
  exists ps',
    satisfy cfg nowTs ps c = (ps', c, true)
    /\ endpointDistance ps' c - rest c
       = (1 - stiffness c) * (endpointDistance ps c - rest c)
    /\ (pinned pa = true -> ps' !! a c = Some pa)
    /\ (pinned pb = true -> ps' !! b c = Some pb)
    /\ (forall j, j <> a c -> j <> b c -> ps' !! j = ps !! j).
Proof.
  intros Hne Ha Hb Hfree Hbr Hk Hrest Hpos Hhi.
  assert (Hne' : b c <> a c) by congruence.
  set (dx := positionX pb - positionX pa).
  set (dy := positionY pb - positionY pa).
  set (d := endpointDistance ps c) in *.
  assert (Hd : d = hypot dx dy).
  { subst d dx dy. unfold endpointDistance. by rewrite Ha, Hb. }
  set (s := 1 - stiffness c * ((d - rest c) / d)).
  assert (Hsd : s * d = rest c + (1 - stiffness c) * (d - rest c)).
  { subst s. field. lra. }
  assert (Hs0 : 0 <= s).
  { destruct (Rle_dec 0 s) as [|Hn]; [done|]. exfalso.
    assert (0 < s * d) by nra. nra. }
  unfold satisfy. rewrite Hbr, Ha, Hb. fold dx dy. rewrite <- Hd.
  rewrite (orEps_pos d Hpos).
  destruct (Rgt_dec d (rest c * getCurrentBreakThreshold nowTs c)) as [Hgt|_]; [lra|].
  destruct (pinned pa) eqn:Hpa, (pinned pb) eqn:Hpb; try done; cbn [negb andb].
  - (* a pinned, b free *)
    eexists. split; [reflexivity|].
    assert (Ha' : subPositionY (b c) (dy * stiffness c * ((d - rest c) / d))
                    (subPositionX (b c) (dx * stiffness c * ((d - rest c) / d)) ps)
                  !! a c = Some pa) by (store_lookups; done).
    split.
    + erewrite endpointDistance_scaled with (ps := ps) (s := s) (pa := pa) (pb := pb);
        [fold d; lra | done | done | exact Ha' | store_lookups; by rewrite Hb | done | |];
        simpl; subst s dx dy; lra.
    + split; [done|]. split; [done|]. intros j Hja Hjb. store_lookups. done.
  - (* a free, b pinned *)
    eexists. split; [reflexivity|].
    assert (Hb' : addPositionY (a c) (dy * stiffness c * ((d - rest c) / d))
                    (addPositionX (a c) (dx * stiffness c * ((d - rest c) / d)) ps)
                  !! b c = Some pb) by (store_lookups; done).
    split.
    + erewrite endpointDistance_scaled with (ps := ps) (s := s) (pa := pa) (pb := pb);
        [fold d; lra | done | done | store_lookups; by rewrite Ha | exact Hb' | done | |];
        simpl; subst s dx dy; lra.
    + split; [done|]. split; [done|]. intros j Hja Hjb. store_lookups. done.
  - (* both free *)
    eexists. split; [reflexivity|].
    split.
    + erewrite endpointDistance_scaled with (ps := ps) (s := s) (pa := pa) (pb := pb);
        [fold d; lra | done | done | store_lookups; by rewrite Ha
        | store_lookups; by rewrite Hb | done | |];
        simpl; subst s dx dy; lra.
    + split; [done|]. split; [done|]. intros j Hja Hjb. store_lookups. done.
Qed.

(** Extra X3.  A tear of a constraint between two different particles that
    are apart, one of them at least free: the endpoints end exactly
    [tearImpulse] farther apart, a pinned endpoint and every other particle
    stay as they are, and with two free endpoints the midpoint stays. *)
Theorem forceBreak_separates ps c pa pb :
  a c <> b c -> ps !! a c = Some pa -> ps !! b c = Some pb ->
  pinned pa && pinned pb = false -> broken c = false ->
  0 <= tearImpulse cfg -> 0 < endpointDistance ps c ->
  let ps' := fst (forceBreak cfg ps c) in
  endpointDistance ps' c = endpointDistance ps c + tearImpulse cfg
  /\ (pinned pa = true -> ps' !! a c = Some pa)
  /\ (pinned pb = true -> ps' !! b c = Some pb)
  /\ (forall j, j <> a c -> j <> b c -> ps' !! j = ps !! j)
  /\ (pinned pa = false -> pinned pb = false ->
      exists m m', midpoint ps c = Some m /\ midpoint ps' c = Some m'
                   /\ fst m' = fst m /\ snd m' = snd m).
Proof.
  intros Hne Ha Hb Hfree Hbr Hpush Hpos ps'.
  assert (Hne' : b c <> a c) by congruence.
  set (dx := positionX pb - positionX pa).
  set (dy := positionY pb - positionY pa).
  set (d := endpointDistance ps c) in *.
  assert (Hd : d = hypot dx dy).
  { subst d dx dy. unfold endpointDistance. by rewrite Ha, Hb. }
  set (s := 1 + tearImpulse cfg / d).
  assert (Hsd : s * d = d + tearImpulse cfg) by (subst s; field; lra).
  assert (Hs0 : 0 <= s).
  { subst s. assert (0 <= tearImpulse cfg / d); [|lra].
    apply Rmult_le_pos; [done|]. by apply Rlt_le, Rinv_0_lt_compat. }
  assert (Hscale : forall v, v * (1 + tearImpulse cfg / d) = v + v / d * tearImpulse cfg)
    by (intros v; field; lra).
  subst ps'. unfold forceBreak. rewrite Hbr, Ha, Hb. fold dx dy. rewrite <- Hd.
  rewrite (orEps_pos d Hpos).
  destruct (pinned pa) eqn:Hpa, (pinned pb) eqn:Hpb; try done; cbn [negb andb fst].
  - split.
    + erewrite endpointDistance_scaled with (ps := ps) (s := s) (pa := pa) (pb := pb);
        [fold d; lra | done | done | store_lookups; done
        | store_lookups; by rewrite Hb | done | |];
        simpl; subst s dx dy; rewrite Hscale; lra.
    + split; [intros _; store_lookups; done|]. split; [done|].
      split; [|done]. intros j Hja Hjb. store_lookups. done.
  - split.
    + erewrite endpointDistance_scaled with (ps := ps) (s := s) (pa := pa) (pb := pb);
        [fold d; lra | done | done | store_lookups; by rewrite Ha
        | store_lookups; done | done | |];
        simpl; subst s dx dy; rewrite Hscale; lra.
    + split; [done|]. split; [intros _; store_lookups; done|].
      split; [|done]. intros j Hja Hjb. store_lookups. done.
  - split.
    + erewrite endpointDistance_scaled with (ps := ps) (s := s) (pa := pa) (pb := pb);
        [fold d; lra | done | done | store_lookups; by rewrite Ha
        | store_lookups; by rewrite Hb | done | |];
        simpl; subst s dx dy; rewrite Hscale; lra.
    + split; [done|]. split; [done|].
      split; [intros j Hja Hjb; store_lookups; done|].
      intros _ _. unfold midpoint. rewrite Ha, Hb. store_lookups. rewrite Ha, Hb.
      eexists _, _. split; [reflexivity|]. split; [reflexivity|].
      simpl. split; lra.
Qed.

Lemma hypot_zero x y : hypot x y = 0 -> x = 0 /\ y = 0.
Proof.
  unfold hypot. intros H. apply sqrt_eq_0 in H; [|nra]. split; nra.
Qed.

Lemma alter_nothing (f : Particle -> Particle) i ps :
  (forall p, f p = p) -> alter f i ps = ps.
Proof. apply list_alter_id. Qed.

Lemma move_by_zero_X p d : d = 0 -> setPositionX (positionX p + d) p = p
                                   /\ setPositionX (positionX p - d) p = p.
Proof. intros ->. destruct p. unfold setPositionX. simpl. split; f_equal; lra. Qed.

Lemma move_by_zero_Y p d : d = 0 -> setPositionY (positionY p + d) p = p
                                   /\ setPositionY (positionY p - d) p = p.
Proof. intros ->. destruct p. unfold setPositionY. simpl. split; f_equal; lra. Qed.

Lemma writes_of_zero i dx dy ps :
  dx = 0 -> dy = 0 ->
  addPositionX i dx ps = ps /\ addPositionY i dy ps = ps
  /\ subPositionX i dx ps = ps /\ subPositionY i dy ps = ps.
Proof.
  intros Hx Hy. unfold addPositionX, addPositionY, subPositionX, subPositionY.
  repeat split; apply alter_nothing; intros p;
    (apply move_by_zero_X || apply move_by_zero_Y); done.
Qed.

Ltac zero_writes :=
  repeat match goal with
    | |- context [addPositionX ?i ?d ?l] =>
        rewrite (proj1 (writes_of_zero i d 0 l ltac:(unfold Rdiv; lra) eq_refl))
    | |- context [addPositionY ?i ?d ?l] =>
        rewrite (proj1 (proj2 (writes_of_zero i 0 d l eq_refl ltac:(unfold Rdiv; lra))))
    | |- context [subPositionX ?i ?d ?l] =>
        rewrite (proj1 (proj2 (proj2 (writes_of_zero i d 0 l ltac:(unfold Rdiv; lra) eq_refl))))
    | |- context [subPositionY ?i ?d ?l] =>
        rewrite (proj2 (proj2 (proj2 (writes_of_zero i 0 d l eq_refl ltac:(unfold Rdiv; lra)))))
    end.

(** Extra X4.  Endpoints that coincide are never pulled apart: with the
    distance zero the direction is zero, so a tear sets [broken] and moves
    nothing, and [satisfy] moves nothing either, whether it breaks the
    constraint (when rest * threshold is below the guard 1e-6) or not. *)
Theorem coincident_endpoints_never_move nowTs ps c pa pb :
  ps !! a c = Some pa -> ps !! b c = Some pb ->
  endpointDistance ps c = 0 ->
  fst (forceBreak cfg ps c) = ps
  /\ fst (fst (satisfy cfg nowTs ps c)) = ps
  /\ (broken c = false ->
      (broken (snd (fst (satisfy cfg nowTs ps c))) = true
       <-> rest c * getCurrentBreakThreshold nowTs c < 1e-6)).
Proof.
  intros Ha Hb Hd. unfold endpointDistance in Hd. rewrite Ha, Hb in Hd.
  destruct (hypot_zero _ _ Hd) as [Hx Hy].
  assert (Hbreak : fst (forceBreak cfg ps c) = ps).
  { unfold forceBreak. destruct (broken c); [done|]. rewrite Ha, Hb.
    rewrite Hx, Hy. repeat case_match; cbn [fst]; zero_writes; done. }
  split; [done|].
  assert (Hsat : fst (fst (satisfy cfg nowTs ps c)) = ps).
  { unfold satisfy. destruct (broken c); [done|]. rewrite Ha, Hb.
    destruct (Rgt_dec _ _); [done|].
    rewrite Hx, Hy. repeat case_match; cbn [fst]; zero_writes; done. }
  split; [done|].
  intros Hbr.
  assert (Hcur : currentDistance pa pb = 1e-6).
  { unfold currentDistance. rewrite Hd. unfold orEps.
    destruct (Req_dec_T 0 0); [done|lra]. }
  destruct (Rgt_dec (currentDistance pa pb) (rest c * getCurrentBreakThreshold nowTs c))
    as [Hgt|Hle].
  - rewrite (satisfy_breaks cfg nowTs ps c pa pb Hbr Ha Hb Hgt). simpl.
    rewrite forceBreak_constraint. simpl. split; [intros _; lra|done].
  - destruct (satisfy_holds cfg nowTs ps c pa pb Hbr Ha Hb Hle) as [-> _].
    rewrite Hbr. split; [done|]. intros Hlt. lra.
Qed.
End OneConstraint.

(** ** What a step leaves *)

Section StepResult.
Variable cfg : Settings.
Variable random : nat -> R.
Variables canvasWidth canvasHeight : R.
Implicit Types (p : Particle) (ps : list Particle) (c : DistanceConstraint)
         (cs : list DistanceConstraint).

Lemma onlyMoved_refl_all ps : Forall2 onlyMoved ps ps.
Proof. apply Forall_Forall2_diag, Forall_forall. intros p _. by repeat split. Qed.

Lemma onlyMoved_trans p1 p2 p3 : onlyMoved p1 p2 -> onlyMoved p2 p3 -> onlyMoved p1 p3.
Proof.
  unfold onlyMoved. intros (?&?&?&?&?) (?&?&?&?&?). repeat split; congruence.
Qed.

Lemma onlyMoved_write (f : Particle -> Particle) ps0 ps i :
  (forall q, onlyMoved q (f q)) ->
  Forall2 onlyMoved ps0 ps -> Forall2 onlyMoved ps0 (alter f i ps).
Proof.
  intros Hf Hall. apply Forall2_alter_r; [done|].
  intros x y _ _ Hxy. eapply onlyMoved_trans; [exact Hxy|apply Hf].
Qed.

Ltac only_moves :=
  unfold addPositionX, addPositionY, subPositionX, subPositionY;
  repeat (apply onlyMoved_write; [intros q; by repeat split|]);
  apply onlyMoved_refl_all.

Lemma forceBreak_onlyMoved ps c : Forall2 onlyMoved ps (fst (forceBreak cfg ps c)).
Proof.
  unfold forceBreak. destruct (broken c); [apply onlyMoved_refl_all|].
  destruct (ps !! a c), (ps !! b c); try apply onlyMoved_refl_all.
  repeat case_match; cbn [fst]; only_moves.
Qed.

Lemma satisfy_onlyMoved nowTs ps c :
  Forall2 onlyMoved ps (fst (fst (satisfy cfg nowTs ps c))).
Proof.
  unfold satisfy. destruct (broken c); [apply onlyMoved_refl_all|].
  destruct (ps !! a c), (ps !! b c); try apply onlyMoved_refl_all.
  destruct (Rgt_dec _ _); [apply forceBreak_onlyMoved|].
  repeat case_match; cbn [fst]; only_moves.
Qed.

Lemma brokenOrSame_trans c1 c2 c3 :
  brokenOrSame c1 c2 -> brokenOrSame c2 c3 -> brokenOrSame c1 c3.
Proof.
  unfold brokenOrSame. intros [->| ->] [->| ->]; auto.
Qed.

Lemma brokenOrSame_refl_all cs : Forall2 brokenOrSame cs cs.
Proof. apply Forall_Forall2_diag, Forall_forall. intros c _. by left. Qed.

(** A pass moves particles and breaks constraints, and does nothing else. *)
Lemma relaxFrom_result nowTs cs : forall breaks ps,
  Forall2 onlyMoved ps (fst (relaxFrom cfg nowTs breaks ps cs))
  /\ Forall2 brokenOrSame cs (snd (relaxFrom cfg nowTs breaks ps cs)).
Proof.
  induction cs as [|c tl IH]; intros breaks ps.
  - split; [apply onlyMoved_refl_all|constructor].
  - simpl. destruct (broken c) eqn:Hb.
    + destruct (IH breaks ps) as [H1 H2].
      destruct (relaxFrom cfg nowTs breaks ps tl). simpl in *.
      split; [done|]. constructor; [by left|done].
    + pose proof (satisfy_onlyMoved nowTs ps c) as Hs.
      pose proof (satisfy_constraint cfg nowTs ps c) as Hc.
      destruct (satisfy cfg nowTs ps c) as [[ps1 c1] ok]. simpl in Hs, Hc.
      assert (Hc1 : brokenOrSame c c1) by (destruct Hc; [by left|by right]).
      destruct ok.
      * destruct (IH breaks ps1) as [H1 H2].
        destruct (relaxFrom cfg nowTs breaks ps1 tl). simpl in *.
        split; [eapply Forall2_trans; [apply onlyMoved_trans|exact Hs|exact H1]|].
        by constructor.
      * destruct (Z.leb _ _).
        -- simpl. split; [done|]. constructor; [done|apply brokenOrSame_refl_all].
        -- destruct (IH (breaks + 1)%Z ps1) as [H1 H2].
           destruct (relaxFrom cfg nowTs (breaks + 1) ps1 tl). simpl in *.
           split; [eapply Forall2_trans; [apply onlyMoved_trans|exact Hs|exact H1]|].
           by constructor.
Qed.

Lemma relax_result nowTs st :
  Forall2 onlyMoved (fst st) (fst (relax cfg nowTs st))
  /\ Forall2 brokenOrSame (snd st) (snd (relax cfg nowTs st)).
Proof.
  unfold relax. induction (Z.to_nat (constraintIterations cfg)) as [|n [IH1 IH2]].
  - split; [apply onlyMoved_refl_all|apply brokenOrSame_refl_all].
  - rewrite Nat.iter_succ. unfold relaxPass at 1 3.
    destruct (relaxFrom_result nowTs
                (snd (Nat.iter n (relaxPass cfg nowTs) st)) 0
                (fst (Nat.iter n (relaxPass cfg nowTs) st))) as [H1 H2].
    split.
    + eapply Forall2_trans; [apply onlyMoved_trans|exact IH1|exact H1].
    + eapply Forall2_trans; [apply brokenOrSame_trans|exact IH2|exact H2].
Qed.

Lemma removeBroken_unbroken cs : Forall (fun c => broken c = false) (removeBroken cs).
Proof.
  apply Forall_forall. intros c Hin. apply list_elem_of_In in Hin.
  by apply removeBroken_In in Hin.
Qed.

Lemma removeBroken_sublist cs cs' :
  Forall2 brokenOrSame cs cs' -> removeBroken cs' `sublist_of` cs.
Proof.
  induction 1 as [|c c' cs cs' Hc _ IH]; [constructor|].
  unfold removeBroken in *. simpl.
  destruct Hc as [->| ->]; simpl.
  - destruct (broken c); simpl; [by apply sublist_cons|by apply sublist_skip].
  - by apply sublist_cons.
Qed.

Lemma jitterParticle_pos p k :
  snd (jitterParticle cfg random p k) = (k + 2 * (if pinned p then 0 else 1))%nat.
Proof. unfold jitterParticle. destruct (pinned p); simpl; lia. Qed.

Lemma applyJitter_randomPos ps : forall k,
  snd (applyJitter cfg random ps k) = (k + 2 * freeCount ps)%nat.
Proof.
  unfold freeCount. induction ps as [|p tl IH]; intros k; [simpl; lia|].
  simpl. pose proof (jitterParticle_pos p k) as Hk.
  destruct (jitterParticle cfg random p k) as [p' k1]. simpl in Hk.
  specialize (IH k1). destruct (applyJitter cfg random tl k1) as [tl' k2].
  simpl in *. destruct (pinned p); simpl; lia.
Qed.

(** Extra X5.  After [stepSimulation] the store holds the same particles in
    the same order, each with its [pinned] flag, with the position it had
    before the step as previous position and with no acceleration left; no
    constraint of the list is broken and the list is a sublist of the old
    one (a step makes no constraint and changes none that it keeps); the
    pulses are the old ones that are young enough; two random numbers were
    read for each free particle. *)
Theorem stepSimulation_result dtMs now nowTs s :
  let s' := stepSimulation cfg random canvasWidth canvasHeight dtMs now nowTs s in
  Forall2 stepped (particles s) (particles s')
  /\ Forall (fun c => broken c = false) (constraints s')
  /\ constraints s' `sublist_of` constraints s
  /\ pulses s' = cullPulses cfg now (pulses s)
  /\ randomPos s' = (randomPos s + 2 * freeCount (particles s))%nat.
Proof.
  intros s'. subst s'. unfold stepSimulation.
  pose proof (applyJitter_place cfg random (particles s) (randomPos s)) as H1.
  pose proof (applyJitter_randomPos (particles s) (randomPos s)) as Hk.
  destruct (applyJitter cfg random (particles s) (randomPos s)) as [ps1 k].
  simpl in H1, Hk.
  set (pus := cullPulses cfg now (pulses s)).
  pose proof (applyPulses_place cfg now pus ps1) as H2.
  set (ps2 := applyPulses cfg now pus ps1) in *.
  set (ps3 := integrate cfg canvasWidth canvasHeight (dtMs / 1000) ps2).
  destruct (relax_result nowTs (ps3, constraints s)) as [H4 H5].
  destruct (relax cfg nowTs (ps3, constraints s)) as [ps4 cs4]. simpl in *.
  split; [|split; [apply removeBroken_unbroken|split; [by apply removeBroken_sublist|done]]].
  assert (H12 : Forall2 samePlace (particles s) ps2)
    by (eapply Forall2_trans; [apply samePlace_trans|exact H1|exact H2]).
  assert (H3 : Forall2 stepped (particles s) ps3).
  { subst ps3. unfold integrate. apply Forall2_fmap_r.
    eapply Forall2_impl; [exact H12|].
    intros p q (Hp & Hx & Hy). unfold stepped, verletStep. simpl.
    destruct (pinned q) eqn:Hq; simpl; rewrite ?Hq; repeat split; congruence. }
  eapply Forall2_trans; [|exact H3|exact H4].
  intros p q r (Hp & Hx & Hy & Hax & Hay) (Hp' & Hx' & Hy' & Hax' & Hay').
  unfold stepped. repeat split; congruence.
Qed.
End StepResult.

(** ** The lattice, built and kept *)

Section LatticeKept.
Variable cfg : Settings.
Variable random : nat -> R.
Variables canvasWidth canvasHeight : R.
Implicit Types (p : Particle) (ps : list Particle) (c : DistanceConstraint)
         (cs : list DistanceConstraint).

Lemma upto_In x n : In x (upto n) <-> (0 <= x < n)%Z.
Proof.
  unfold upto. rewrite in_map_iff. split.
  - intros (t & <- & Ht). apply in_seq in Ht. lia.
  - intros Hx. exists (Z.to_nat x). split; [lia|]. apply in_seq. lia.
Qed.

Lemma particleAt_lt i j :
  (0 <= i < gridCols cfg)%Z -> (0 <= j < gridRows cfg)%Z ->
  (particleAt cfg i j < Z.to_nat (gridRows cfg) * Z.to_nat (gridCols cfg))%nat.
Proof. intros Hi Hj. unfold particleAt. nia. Qed.

Lemma newConstraint_lattice n ia ib restLength k :
  (ia < n)%nat -> (ib < n)%nat -> ia <> ib ->
  k = structuralStiffness cfg \/ k = shearStiffness cfg ->
  latticeConstraint cfg n (newConstraint cfg ia ib restLength k).
Proof. intros Ha Hb Hne Hk. repeat split; try done. by left. Qed.

(** The constraints of [buildGrid] join different particles of the grid. *)
Lemma buildConstraints_lattice :
  Forall (latticeConstraint cfg (Z.to_nat (gridRows cfg) * Z.to_nat (gridCols cfg)))
         (buildConstraints cfg canvasWidth canvasHeight).
Proof.
  apply Forall_forall. intros c Hin. apply list_elem_of_In in Hin.
  unfold buildConstraints in Hin.
  apply in_flat_map in Hin as (j & Hj & Hin). apply upto_In in Hj.
  apply in_flat_map in Hin as (i & Hi & Hin). apply upto_In in Hi.
  unfold cellConstraints in Hin.
  repeat (apply in_app_or in Hin as [Hin|Hin]);
    repeat match type of Hin with
      | In _ (if ?t then _ else _) => destruct t eqn:?; simpl in Hin
      end;
    try done; destruct Hin as [<-|[]];
    apply newConstraint_lattice; auto;
    try (apply particleAt_lt; lia);
    unfold particleAt; nia.
Qed.

Lemma buildParticles_length k0 :
  length (fst (buildParticles cfg random canvasWidth canvasHeight k0))
  = (Z.to_nat (gridRows cfg) * Z.to_nat (gridCols cfg))%nat
  /\ snd (buildParticles cfg random canvasWidth canvasHeight k0)
     = (k0 + 2 * (Z.to_nat (gridRows cfg) * Z.to_nat (gridCols cfg)))%nat.
Proof.
  unfold buildParticles.
  change (upto (gridRows cfg)) with (map Z.of_nat (seq 0 (Z.to_nat (gridRows cfg)))).
  destruct (pushRows_spec cfg random canvasWidth canvasHeight
              (Z.to_nat (gridRows cfg)) 0%nat [] k0) as (Hk & Hlen & _).
  by split.
Qed.

Lemma sublist_Forall_keep {A} (P : A -> Prop) (l1 l2 : list A) :
  l1 `sublist_of` l2 -> Forall P l2 -> Forall P l1.
Proof.
  induction 1 as [|x l1 l2 _ IH|x l1 l2 _ IH]; intros H; [done| |].
  - inversion H; subst. constructor; auto.
  - inversion H; subst. auto.
Qed.

Lemma markWeak_lattice n now c :
  latticeConstraint cfg n c ->
  latticeConstraint cfg n
    (markWeak cfg (breakThreshold cfg * weakenFactor cfg) (now + weakenDurationMs cfg) c).
Proof.
  intros (Hatt & Hbase & Hk & Hw). split; [done|]. split; [done|]. split; [done|].
  right. rewrite markWeak_threshold. f_equal. unfold storedWeakThreshold in *.
  destruct Hw as [[-> _]| ->]; [done|]. apply Rmin_left. lra.
Qed.

Lemma setBroken_lattice n v c :
  latticeConstraint cfg n c -> latticeConstraint cfg n (setBroken v c).
Proof. done. Qed.

Lemma weakenOne_lattice n now x y aggressive ps k c :
  latticeConstraint cfg n c ->
  latticeConstraint cfg n (snd (weakenOne cfg random now x y aggressive ps k c)).
Proof.
  intros Hc. unfold weakenOne. destruct (broken c); [done|].
  destruct (midpoint ps c) as [[mx my]|]; [|done].
  destruct (ps !! a c); [|done]. destruct (ps !! b c); [|done].
  destruct (Rle_dec _ _); [|done].
  set (c1 := markWeak cfg _ _ c).
  assert (Hc1 : latticeConstraint cfg n c1) by by apply markWeak_lattice.
  pose proof (forceBreak_constraint cfg ps c1) as Hf.
  destruct (forceBreak cfg ps c1) as [ps' c2]. simpl in Hf. subst c2.
  destruct (aggressive && _); [|done].
  destruct (Rgt_dec _ _); [done|]. by destruct (Rlt_dec _ _).
Qed.

Lemma weakenFrom_lattice n now x y aggressive cs : forall ps k,
  Forall (latticeConstraint cfg n) cs ->
  Forall (latticeConstraint cfg n)
         (snd (weakenFrom cfg random now x y aggressive ps k cs)).
Proof.
  induction cs as [|c tl IH]; intros ps k Hall; [constructor|].
  inversion Hall as [|? ? Hc Htl]; subst. simpl.
  pose proof (weakenOne_lattice n now x y aggressive ps k c Hc) as H1.
  destruct (weakenOne cfg random now x y aggressive ps k c) as [[ps1 k1] c1].
  specialize (IH ps1 k1 Htl).
  destruct (weakenFrom cfg random now x y aggressive ps1 k1 tl) as [[ps2 k2] tl'].
  by constructor.
Qed.

(** One operation keeps the number of particles and the lattice's
    constraints. *)
Lemma runSimOp_lattice s op :
  Forall (latticeConstraint cfg (length (particles s))) (constraints s) ->
  let s' := runSimOp cfg random canvasWidth canvasHeight s op in
  length (particles s') = length (particles s)
  /\ Forall (latticeConstraint cfg (length (particles s'))) (constraints s').
Proof.
  intros Hall s'. subst s'.
  destruct op as [dtMs now nowTs|now x y aggressive|now x y pulseStr]; simpl.
  - destruct (stepSimulation_result cfg random canvasWidth canvasHeight dtMs now nowTs s)
      as (Hps & _ & Hsub & _).
    apply Forall2_length in Hps. split; [done|]. rewrite <- Hps.
    by eapply sublist_Forall_keep.
  - pose proof (weakenConstraintsNear_stays cfg random now x y aggressive s) as Hps.
    apply Forall2_length in Hps. split; [done|]. rewrite <- Hps.
    unfold weakenConstraintsNear.
    pose proof (weakenFrom_lattice (length (particles s)) now x y aggressive
                  (constraints s) (particles s) (randomPos s) Hall) as H.
    by destruct (weakenFrom cfg random now x y aggressive (particles s) (randomPos s)
                   (constraints s)) as [[ps k] cs].
  - done.
Qed.

(** Extra X6.  In every state that the program reaches from [buildGrid] by
    steps, weakenings with tears and new pulses, the store holds rows *
    cols particles and every constraint of the list joins two different
    particles of the store (no branch for a missing endpoint is ever
    taken), has the configured base threshold, the structural or the shear
    stiffness, and either no weak threshold or the one value that
    [weakenConstraintsNear] proposes, raised to the floor. *)
Theorem lattice_is_kept ops s0 :
  let n := (Z.to_nat (gridRows cfg) * Z.to_nat (gridCols cfg))%nat in
  let s := fold_left (runSimOp cfg random canvasWidth canvasHeight) ops
                     (buildGrid cfg random canvasWidth canvasHeight s0) in
  length (particles s) = n
  /\ Forall (latticeConstraint cfg n) (constraints s)
  /\ Forall (fun c => exists pa pb m,
                 particles s !! a c = Some pa /\ particles s !! b c = Some pb
                 /\ midpoint (particles s) c = Some m) (constraints s).
Proof.
  intros n s.
  assert (Hinv : length (particles s) = n
                 /\ Forall (latticeConstraint cfg (length (particles s))) (constraints s)).
  { subst s. set (s1 := buildGrid cfg random canvasWidth canvasHeight s0).
    assert (H1 : length (particles s1) = n
                 /\ Forall (latticeConstraint cfg (length (particles s1))) (constraints s1)).
    { subst s1. unfold buildGrid.
      destruct (buildParticles_length (randomPos s0)) as [Hlen _].
      destruct (buildParticles cfg random canvasWidth canvasHeight (randomPos s0))
        as [ps k]. simpl in *. split; [done|]. rewrite Hlen.
      apply buildConstraints_lattice. }
    clearbody s1. revert s1 H1. induction ops as [|op ops IH]; intros s1 [Hn Hall]; [done|].
    simpl. apply IH. destruct (runSimOp_lattice s1 op Hall) as [Hn' Hall'].
    split; [congruence|done]. }
  destruct Hinv as [Hn Hall]. split; [done|]. split; [by rewrite <- Hn|].
  eapply Forall_impl; [exact Hall|].
  intros c ((Ha & Hb & _) & _).
  apply lookup_lt_is_Some in Ha as [pa Ha]. apply lookup_lt_is_Some in Hb as [pb Hb].
  exists pa, pb. unfold midpoint. rewrite Ha, Hb. eauto.
Qed.
End LatticeKept.

(** ** The lattice as built *)

Section LatticeBuilt.
Variable cfg : Settings.
Variable random : nat -> R.
Variables canvasWidth canvasHeight : R.


(** The number of constraints that one cell of the grid makes. *)
Lemma cellConstraints_length j i :
  length (cellConstraints cfg canvasWidth canvasHeight j i)
  = ((if (i <? gridCols cfg - 1)%Z then 1 else 0)
     + (if (j <? gridRows cfg - 1)%Z then 1 else 0)
     + (if (i <? gridCols cfg - 1)%Z && (j <? gridRows cfg - 1)%Z then 1 else 0)
     + (if (0 <? i)%Z && (j <? gridRows cfg - 1)%Z then 1 else 0))%nat.
Proof.
  unfold cellConstraints. rewrite !length_app.
  repeat match goal with |- context [if ?t then _ else _] => destruct t end; simpl; lia.
Qed.

Lemma upto_succ (m : nat) : upto (Z.of_nat (S m)) = upto (Z.of_nat m) ++ [Z.of_nat m].
Proof.
  unfold upto. rewrite !Nat2Z.id. rewrite seq_S, map_app. done.
Qed.

(** The constraints of the first [m] cells of row [j]. *)
Lemma rowConstraints_length j (m : nat) :
  (Z.of_nat m <= gridCols cfg)%Z ->
  let J := if (j <? gridRows cfg - 1)%Z then 1%nat else 0%nat in
  length (flat_map (cellConstraints cfg canvasWidth canvasHeight j) (upto (Z.of_nat m)))
  = (Nat.min m (Z.to_nat (gridCols cfg) - 1) * (1 + J) + m * J + (m - 1) * J)%nat.
Proof.
  intros Hm J. induction m as [|m IH]; [done|].
  rewrite upto_succ, flat_map_app, length_app, IH by lia.
  cbn [flat_map]. rewrite app_nil_r, cellConstraints_length.
  subst J. destruct (j <? gridRows cfg - 1)%Z;
    destruct (Z.ltb_spec (Z.of_nat m) (gridCols cfg - 1));
    destruct (Z.ltb_spec 0 (Z.of_nat m)); cbn [andb]; lia.
Qed.

(** Extra X8.  For a grid of at least one column and one row, [buildGrid]
    makes (cols - 1) * rows horizontal, (rows - 1) * cols vertical and
    2 * (cols - 1) * (rows - 1) diagonal constraints. *)
Theorem buildGrid_constraint_count s0 :
  (1 <= gridCols cfg)%Z -> (1 <= gridRows cfg)%Z ->
  let C := Z.to_nat (gridCols cfg) in
  let R := Z.to_nat (gridRows cfg) in
  length (constraints (buildGrid cfg random canvasWidth canvasHeight s0))
  = ((C - 1) * R + (R - 1) * C + 2 * ((C - 1) * (R - 1)))%nat.
Proof.
  intros HC HR C R.
  assert (Hcs : constraints (buildGrid cfg random canvasWidth canvasHeight s0)
                = buildConstraints cfg canvasWidth canvasHeight).
  { unfold buildGrid. by destruct (buildParticles _ _ _ _ _). }
  rewrite Hcs. unfold buildConstraints.
  assert (Hrows : forall m : nat, (m <= R)%nat ->
            length (flat_map
                      (fun j => flat_map (cellConstraints cfg canvasWidth canvasHeight j)
                                         (upto (gridCols cfg)))
                      (upto (Z.of_nat m)))
            = (m * (C - 1) + Nat.min m (R - 1) * (3 * C - 2))%nat).
  { induction m as [|m IH]; intros Hm; [done|].
    rewrite upto_succ, flat_map_app, length_app, IH by lia. cbn [flat_map].
    rewrite app_nil_r.
    replace (gridCols cfg) with (Z.of_nat C) at 1 by (subst C; lia).
    rewrite rowConstraints_length by (subst C; lia). fold C.
    destruct (Z.ltb_spec (Z.of_nat m) (gridRows cfg - 1)).
    - replace (Nat.min (S m) (R - 1)) with (S m) by lia.
      replace (Nat.min m (R - 1)) with m by lia.
      replace (Nat.min C (C - 1)) with (C - 1)%nat by lia.
      assert (1 <= C)%nat by (subst C; lia). nia.
    - replace (Nat.min (S m) (R - 1)) with (R - 1)%nat by lia.
      replace (Nat.min m (R - 1)) with (R - 1)%nat by lia.
      replace (Nat.min C (C - 1)) with (C - 1)%nat by lia.
      nia. }
  replace (gridRows cfg) with (Z.of_nat R) at 1 by (subst R; lia).
  rewrite Hrows by lia.
  replace (Nat.min R (R - 1)) with (R - 1)%nat by lia.
  assert (1 <= C)%nat by (subst C; lia). assert (1 <= R)%nat by (subst R; lia). nia.
Qed.
End LatticeBuilt.

(** ** Weakening and tearing at the pointer *)

Section Pointer.
Variable cfg : Settings.
Variable random : nat -> R.
Variable clock : nat -> R.
Implicit Types (p : Particle) (ps : list Particle) (c : DistanceConstraint)
         (cs : list DistanceConstraint).

(** Without [aggressive] a constraint is weakened at most: the store and
    the random source are not touched. *)
Lemma weakenOne_soft now x y ps k c :
  let r := weakenOne cfg random now x y false ps k c in
  fst (fst r) = ps /\ snd (fst r) = k
  /\ broken (snd r) = broken c
  /\ (broken c = true -> snd r = c)
  /\ (forall mx my,
        broken c = false -> midpoint ps c = Some (mx, my) ->
        (hypot (mx - x) (my - y) <= clickTearRadius cfg ->
         snd r = markWeak cfg (breakThreshold cfg * weakenFactor cfg)
                          (now + weakenDurationMs cfg) c)
        /\ (clickTearRadius cfg < hypot (mx - x) (my - y) -> snd r = c)).
Proof.
  intros r. subst r. unfold weakenOne. destruct (broken c) eqn:Hb.
  { repeat split; try done. }
  unfold midpoint.
  destruct (ps !! a c) as [pa|]; [|by repeat split].
  destruct (ps !! b c) as [pb|]; [|by repeat split].
  destruct (Rle_dec _ _) as [Hle|Hgt]; cbn [andb fst snd].
  - split; [done|]. split; [done|]. split; [done|]. split; [done|].
    intros mx' my' _ [= <- <-]. split; [done|]. intros Hlt. lra.
  - split; [done|]. split; [done|]. split; [done|]. split; [done|].
    intros mx' my' _ [= <- <-]. split; [|done]. intros Hle. lra.
Qed.

(** Extra X9.  [weakenConstraintsNear] without [aggressive] (a drag) moves
    no particle, reads no random number, keeps the pulses, breaks nothing
    and keeps the constraints in their order: a broken constraint is left
    as it is, and an unbroken one is weakened with
    [breakThreshold * weakenFactor] until [now + weakenDurationMs] exactly
    when its midpoint is within [clickTearRadius] of the point. *)
Theorem drag_only_weakens now x y s :
  let s' := weakenConstraintsNear cfg random now x y false s in
  particles s' = particles s /\ randomPos s' = randomPos s /\ pulses s' = pulses s
  /\ Forall2 (fun c c' =>
                broken c' = broken c
                /\ (broken c = true -> c' = c)
                /\ (forall mx my,
                      broken c = false -> midpoint (particles s) c = Some (mx, my) ->
                      (hypot (mx - x) (my - y) <= clickTearRadius cfg ->
                       c' = markWeak cfg (breakThreshold cfg * weakenFactor cfg)
                                     (now + weakenDurationMs cfg) c)
                      /\ (clickTearRadius cfg < hypot (mx - x) (my - y) -> c' = c)))
             (constraints s) (constraints s').
Proof.
  intros s'. subst s'. unfold weakenConstraintsNear.
  assert (H : forall cs ps k,
             let r := weakenFrom cfg random now x y false ps k cs in
             fst (fst r) = ps /\ snd (fst r) = k
             /\ Forall2 (fun c c' =>
                  broken c' = broken c
                  /\ (broken c = true -> c' = c)
                  /\ (forall mx my,
                        broken c = false -> midpoint ps c = Some (mx, my) ->
                        (hypot (mx - x) (my - y) <= clickTearRadius cfg ->
                         c' = markWeak cfg (breakThreshold cfg * weakenFactor cfg)
                                       (now + weakenDurationMs cfg) c)
                        /\ (clickTearRadius cfg < hypot (mx - x) (my - y) -> c' = c)))
                  cs (snd r)).
  { induction cs as [|c tl IH]; intros ps k r; [by repeat split; constructor|].
    subst r. simpl.
    destruct (weakenOne_soft now x y ps k c) as (H1 & H2 & H3 & H4 & H5).
    destruct (weakenOne cfg random now x y false ps k c) as [[ps1 k1] c1].
    simpl in *. subst ps1 k1.
    destruct (IH ps k) as (I1 & I2 & I3).
    destruct (weakenFrom cfg random now x y false ps k tl) as [[ps2 k2] tl'].
    simpl in *. split; [done|]. split; [done|]. constructor; [|done].
    split; [done|]. split; [done|]. exact H5. }
  destruct (H (constraints s) (particles s) (randomPos s)) as (H1 & H2 & H3).
  destruct (weakenFrom cfg random now x y false (particles s) (randomPos s)
              (constraints s)) as [[ps' k'] cs'].
  simpl in *. by repeat split.
Qed.

(** Extra X10.  A press within the inner radius of the midpoint of an
    unbroken constraint: a constraint stretched beyond 1.22 times its rest
    length is weakened and torn at once, with no random number read;
    otherwise one random number is read and the constraint is torn exactly
    when that number is below 0.12 + 0.30 * (1 - d / inner), a chance of
    0.12 at the inner radius and of 0.42 at the point itself. *)
Theorem press_tears now x y ps k c pa pb mx my :
  broken c = false -> ps !! a c = Some pa -> ps !! b c = Some pb ->
  midpoint ps c = Some (mx, my) ->
  let inner := Rmin (clickInnerBreakRadius cfg) (clickTearRadius cfg) in
  let d := hypot (mx - x) (my - y) in
  let c1 := markWeak cfg (breakThreshold cfg * weakenFactor cfg)
                     (now + weakenDurationMs cfg) c in
  let r := weakenOne cfg random now x y true ps k c in
  0 < inner -> d <= inner ->
  (currentDistance pa pb > rest c * 1.22 ->
   r = (fst (forceBreak cfg ps c1), k, setBroken true c1))
  /\ (~ currentDistance pa pb > rest c * 1.22 ->
      snd (fst r) = S k
      /\ (random k < 0.12 + 0.30 * (1 - d / inner) ->
          r = (fst (forceBreak cfg ps c1), S k, setBroken true c1))
      /\ (~ random k < 0.12 + 0.30 * (1 - d / inner) -> r = (ps, S k, c1))
      /\ 0.12 <= 0.12 + 0.30 * (1 - d / inner) <= 0.42).
Proof.
  intros Hb Ha Hpb Hm inner d c1 r Hinner Hd.
  assert (Hd0 : 0 <= d) by apply hypot_nonneg.
  assert (Houter : d <= clickTearRadius cfg).
  { pose proof (Rmin_r (clickInnerBreakRadius cfg) (clickTearRadius cfg)).
    fold inner in H. lra. }
  assert (Hfb : forceBreak cfg ps c1 = (fst (forceBreak cfg ps c1), setBroken true c1)).
  { pose proof (forceBreak_constraint cfg ps c1) as H.
    destruct (forceBreak cfg ps c1). simpl in *. by subst. }
  subst r. unfold weakenOne. rewrite Hb, Hm, Ha, Hpb. fold d inner c1.
  destruct (Rle_dec d (clickTearRadius cfg)) as [_|Hn]; [|lra].
  destruct (Rle_dec d inner) as [_|Hn]; [|lra]. cbn [andb].
  replace (rest c1) with (rest c) by done.
  change (orEps (hypot (positionX pb - positionX pa) (positionY pb - positionY pa)))
    with (currentDistance pa pb).
  split.
  - intros Hgt. destruct (Rgt_dec _ _) as [_|Hn]; [|done]. by rewrite Hfb.
  - intros Hle. destruct (Rgt_dec _ _) as [Hgt|_]; [done|].
    assert (Hq : 0 <= d / inner <= 1).
    { split; [apply Rmult_le_pos; [done|by apply Rlt_le, Rinv_0_lt_compat]|].
      apply Rmult_le_reg_r with (r := inner); [done|].
      unfold Rdiv. rewrite Rmult_assoc, Rinv_l by lra. lra. }
    split; [by destruct (Rlt_dec _ _); [rewrite Hfb|]|].
    split; [|split; [|lra]].
    + intros Hlt. destruct (Rlt_dec _ _) as [_|Hn]; [|done]. by rewrite Hfb.
    + intros Hge. by destruct (Rlt_dec _ _) as [Hlt|_].
Qed.

(** Extra X11.  The [pointermove] listener does nothing while the pointer is
    not down; while it is down it appends one pulse of half the configured
    strength at the point, moves no particle, breaks no constraint, reads
    no random number and reads the clock twice. *)
Theorem pointerMove_never_tears x y app :
  let app' := pointerMove cfg random clock x y app in
  (isPointerDown app = false -> app' = app)
  /\ (isPointerDown app = true ->
      particles (world app') = particles (world app)
      /\ randomPos (world app') = randomPos (world app)
      /\ pulses (world app')
         = pulses (world app)
           ++ [mkPulse x y (pulseStrength cfg * 0.5) (pulseSigma cfg)
                       (clock (clockPos app))]
      /\ Forall2 (fun c c' => broken c' = broken c)
                 (constraints (world app)) (constraints (world app'))
      /\ clockPos app' = (clockPos app + 2)%nat).
Proof.
  intros app'. subst app'. unfold pointerMove. split; [by intros ->|]. intros ->.
  cbn [world clockPos].
  set (s1 := addPulse cfg (clock (clockPos app)) x y (pulseStrength cfg * 0.5) (world app)).
  destruct (drag_only_weakens (clock (S (clockPos app))) x y s1) as (H1 & H2 & H3 & H4).
  rewrite H1, H2, H3. repeat split; try done.
  eapply Forall2_impl; [exact H4|]. by intros c c' (H & _).
Qed.
End Pointer.

(** ** The strength and the life of a pulse *)

Section PulseLife.
Variable cfg : Settings.
Variable random : nat -> R.
Variables canvasWidth canvasHeight : R.
Implicit Types (p : Particle) (pu : Pulse).

Lemma exp_nonpos_le_1 x : x <= 0 -> exp x <= 1.
Proof.
  intros [Hlt| ->]; [|by rewrite exp_0; lra].
  rewrite <- exp_0. by apply Rlt_le, exp_increasing.
Qed.

Lemma exp_minus_ln2 : exp (- ln 2) = / 2.
Proof. rewrite exp_Ropp, exp_ln; lra. Qed.

Lemma exp_minus_6ln2 : exp (- (6 * ln 2)) = / 64.
Proof.
  replace (- (6 * ln 2)) with (- ln 2 + - ln 2 + - ln 2 + - ln 2 + - ln 2 + - ln 2) by ring.
  rewrite !exp_plus, exp_minus_ln2. field.
Qed.

(** The factor [decay * falloff * d / r] of one coordinate of the
    acceleration is at most [bound] when the decay is. *)
Lemma pulse_factor_bound decay falloff r d bound :
  0 <= decay <= bound -> 0 < falloff <= 1 -> 0 <= r -> Rabs d <= r ->
  Rabs (d / (r + 1e-6) * decay * falloff) <= bound.
Proof.
  intros Hdec Hfall Hr Hd.
  assert (Hre : 0 < r + 1e-6) by lra.
  assert (Hq : Rabs (d / (r + 1e-6)) <= 1).
  { unfold Rdiv. rewrite Rabs_mult, (Rabs_pos_eq (/ _)) by (left; by apply Rinv_0_lt_compat).
    apply Rmult_le_reg_r with (r := r + 1e-6); [done|].
    rewrite Rmult_assoc, Rinv_l by lra. lra. }
  rewrite !Rabs_mult, (Rabs_pos_eq decay), (Rabs_pos_eq falloff) by lra.
  assert (0 <= Rabs (d / (r + 1e-6))) by apply Rabs_pos.
  assert (Rabs (d / (r + 1e-6)) * decay <= 1 * bound) by (apply Rmult_le_compat; lra).
  assert (Rabs (d / (r + 1e-6)) * decay * falloff <= 1 * bound * 1).
  { apply Rmult_le_compat; try lra. apply Rmult_le_pos; lra. }
  lra.
Qed.

Lemma coordinate_le_distance x y : Rabs x <= sqrt (x * x + y * y) /\ Rabs y <= sqrt (x * x + y * y).
Proof.
  split.
  - rewrite <- sqrt_Rsqr_abs. apply sqrt_le_1_alt. unfold Rsqr. nra.
  - rewrite <- sqrt_Rsqr_abs. apply sqrt_le_1_alt. unfold Rsqr. nra.
Qed.

(** Extra X12.  For a positive half-life and a sigma that is not zero: the
    acceleration that a pulse gives a particle is, in each coordinate, at
    most the strength of the pulse from its creation on, halves with every
    half-life, and is at most 1/64 of the strength once the pulse is six
    half-lives old, the age at which [stepSimulation] drops it. *)
Theorem pulse_strength_decays now pu p :
  0 < pulseHalfLifeMs cfg -> sigma pu <> 0 ->
  let acc t := pulseAccel cfg t pu p in
  (createdAt pu <= now ->
   Rabs (fst (acc now)) <= Rabs (strength pu)
   /\ Rabs (snd (acc now)) <= Rabs (strength pu))
  /\ fst (acc (now + pulseHalfLifeMs cfg)) = fst (acc now) / 2
  /\ snd (acc (now + pulseHalfLifeMs cfg)) = snd (acc now) / 2
  /\ (pulseHalfLifeMs cfg * 6 <= now - createdAt pu ->
      Rabs (fst (acc now)) <= Rabs (strength pu) / 64
      /\ Rabs (snd (acc now)) <= Rabs (strength pu) / 64).
Proof.
  intros Hh Hsig acc. subst acc. unfold pulseAccel. cbn [fst snd].
  set (h := pulseHalfLifeMs cfg) in *.
  set (dx := positionX p - pulseX pu). set (dy := positionY p - pulseY pu).
  set (r := sqrt (dx * dx + dy * dy)).
  set (falloff := exp (- (dx * dx + dy * dy) / (2 * sigma pu * sigma pu))).
  assert (Hr : 0 <= r) by apply sqrt_pos.
  destruct (coordinate_le_distance dx dy) as [Hdx Hdy]. fold r in Hdx, Hdy.
  assert (Hfall : 0 < falloff <= 1).
  { split; [apply exp_pos|]. apply exp_nonpos_le_1.
    assert (0 < 2 * sigma pu * sigma pu) by nra.
    assert (0 <= (dx * dx + dy * dy) / (2 * sigma pu * sigma pu)).
    { apply Rmult_le_pos; [nra|]. by apply Rlt_le, Rinv_0_lt_compat. }
    unfold Rdiv in *. lra. }
  assert (Hform : forall d t,
            d / (r + 1e-6) * (strength pu * exp (- (ln 2 / h) * (t - createdAt pu)))
            * falloff
            = strength pu
              * (d / (r + 1e-6) * exp (- (ln 2 / h) * (t - createdAt pu)) * falloff))
    by (intros; ring).
  assert (Hbound : forall d t bound,
            Rabs d <= r -> exp (- (ln 2 / h) * (t - createdAt pu)) <= bound ->
            Rabs (d / (r + 1e-6)
                  * (strength pu * exp (- (ln 2 / h) * (t - createdAt pu))) * falloff)
            <= Rabs (strength pu) * bound).
  { intros d t bound Hd Hb. rewrite Hform, Rabs_mult.
    apply Rmult_le_compat_l; [apply Rabs_pos|].
    apply pulse_factor_bound; try done. split; [left; apply exp_pos|done]. }
  assert (Hln : 0 < ln 2) by (rewrite <- ln_1; apply ln_increasing; lra).
  split; [|split; [|split]].
  - intros Hage.
    assert (Hdec : exp (- (ln 2 / h) * (now - createdAt pu)) <= 1).
    { apply exp_nonpos_le_1.
      assert (0 <= ln 2 / h * (now - createdAt pu)); [|lra].
      apply Rmult_le_pos; [|lra].
      apply Rmult_le_pos; [lra|]. by apply Rlt_le, Rinv_0_lt_compat. }
    split; (etransitivity; [apply (Hbound _ now 1); done|lra]).
  - replace (- (ln 2 / h) * (now + h - createdAt pu))
      with (- (ln 2 / h) * (now - createdAt pu) + - ln 2) by (field; lra).
    rewrite exp_plus, exp_minus_ln2. field. lra.
  - replace (- (ln 2 / h) * (now + h - createdAt pu))
      with (- (ln 2 / h) * (now - createdAt pu) + - ln 2) by (field; lra).
    rewrite exp_plus, exp_minus_ln2. field. lra.
  - intros Hold.
    assert (Hdec : exp (- (ln 2 / h) * (now - createdAt pu)) <= / 64).
    { rewrite <- exp_minus_6ln2.
      assert (Hle : - (ln 2 / h) * (now - createdAt pu) <= - (6 * ln 2)).
      { assert (ln 2 / h * (h * 6) <= ln 2 / h * (now - createdAt pu)).
        { apply Rmult_le_compat_l; [|done].
          apply Rmult_le_pos; [lra|]. by apply Rlt_le, Rinv_0_lt_compat. }
        replace (ln 2 / h * (h * 6)) with (6 * ln 2) in H by (field; lra). lra. }
      destruct Hle as [Hlt|Heq]; [by apply Rlt_le, exp_increasing|by rewrite Heq; lra]. }
    split; (etransitivity; [apply (Hbound _ now (/ 64)); done|lra]).
Qed.

(** Extra X13.  A pulse added with [addPulse] is the last of the list; the
    next step keeps it exactly when it is less than six half-lives old at
    that step, and keeps or drops the other pulses as it would without
    it. *)
Theorem pulse_lifetime dtMs now nowTs t0 x y pulseStr s :
  let pu := mkPulse x y pulseStr (pulseSigma cfg) t0 in
  let s1 := addPulse cfg t0 x y pulseStr s in
  pulses s1 = pulses s ++ [pu]
  /\ pulses (stepSimulation cfg random canvasWidth canvasHeight dtMs now nowTs s1)
     = pulses (stepSimulation cfg random canvasWidth canvasHeight dtMs now nowTs s)
       ++ (if Rlt_dec (now - t0) (pulseHalfLifeMs cfg * 6) then [pu] else []).
Proof.
  intros pu s1. split; [done|].
  destruct (stepSimulation_result cfg random canvasWidth canvasHeight dtMs now nowTs s1)
    as (_ & _ & _ & -> & _).
  destruct (stepSimulation_result cfg random canvasWidth canvasHeight dtMs now nowTs s)
    as (_ & _ & _ & -> & _).
  subst s1. unfold addPulse. cbn [pulses]. rewrite cullPulses_app. f_equal.
  unfold cullPulses. simpl. unfold Rltb. by destruct (Rlt_dec _ _).
Qed.
End PulseLife.

(** ** The main loop *)

Section Scheduler.
Variable cfg : Settings.
Variable random : nat -> R.
Variable clock : nat -> R.
Variables canvasWidth canvasHeight : R.




End Scheduler.

(** ** Instances *)

Lemma hypot_of_zero : hypot 0 0 = 0.
Proof. unfold hypot. replace (0 * 0 + 0 * 0) with 0 by ring. apply sqrt_0. Qed.

Lemma satisfy_corrects_toward_rest_witness :
  let c := newConstraint SETTINGS 0 1 10 0.35 in
  let pa := mkParticle 0 0 0 0 0 0 true in
  let pb := mkParticle 5 0 5 0 0 0 false in
  let ps := [pa; pb] in
  exists ps',
    satisfy SETTINGS 0 ps c = (ps', c, true)
    /\ endpointDistance ps' c - rest c = (1 - stiffness c) * (endpointDistance ps c - rest c)
    /\ ps' !! 0%nat = Some pa.
Proof.
  intros c pa pb ps.
  assert (Hd : endpointDistance ps c = 5).
  { unfold endpointDistance. simpl. apply hypot_axis. lra. }
  destruct (satisfy_corrects_toward_rest SETTINGS 0 ps c pa pb)
    as (ps' & H1 & H2 & H3 & _).
  - simpl. lia.
  - reflexivity.
  - reflexivity.
  - reflexivity.
  - reflexivity.
  - simpl. lra.
  - simpl. lra.
  - rewrite Hd. lra.
  - rewrite Hd. unfold getCurrentBreakThreshold. simpl. destruct (Rle_dec 0 0); lra.
  - exists ps'. split; [exact H1|]. split; [exact H2|]. apply H3. reflexivity.
Defined.

Lemma forceBreak_separates_witness :
  let c := newConstraint SETTINGS 0 1 10 0.35 in
  let pa := mkParticle 0 0 0 0 0 0 false in
  let pb := mkParticle 20 0 20 0 0 0 false in
  let ps := [pa; pb] in
  endpointDistance (fst (forceBreak SETTINGS ps c)) c = endpointDistance ps c + 36.
Proof.
  intros c pa pb ps.
  assert (Hd : endpointDistance ps c = 20).
  { unfold endpointDistance. simpl. apply hypot_axis. lra. }
  destruct (forceBreak_separates SETTINGS ps c pa pb) as (H & _).
  - simpl. lia.
  - reflexivity.
  - reflexivity.
  - reflexivity.
  - reflexivity.
  - simpl. lra.
  - rewrite Hd. lra.
  - exact H.
Defined.

Lemma coincident_endpoints_never_move_witness :
  let c := newConstraint SETTINGS 0 1 10 0.35 in
  let pa := mkParticle 7 7 7 7 0 0 false in
  let ps := [pa; pa] in
  fst (forceBreak SETTINGS ps c) = ps /\ fst (fst (satisfy SETTINGS 0 ps c)) = ps.
Proof.
  intros c pa ps.
  destruct (coincident_endpoints_never_move SETTINGS 0 ps c pa pa) as (H1 & H2 & _).
  - reflexivity.
  - reflexivity.
  - unfold endpointDistance. simpl.
    replace (7 - 7) with 0 by ring. apply hypot_of_zero.
  - by split.
Defined.


Lemma buildGrid_constraint_count_witness :
  length (constraints (buildGrid SETTINGS (fun _ => 1 / 2) 800 600 (mkSim [] [] [] 0)))
  = (51 * 34 + 33 * 52 + 2 * (51 * 33))%nat.
Proof.
  rewrite (buildGrid_constraint_count SETTINGS (fun _ => 1 / 2) 800 600 (mkSim [] [] [] 0)).
  - reflexivity.
  - simpl. lia.
  - simpl. lia.
Defined.

Lemma press_tears_witness :
  let c := newConstraint SETTINGS 0 1 10 0.35 in
  let pa := mkParticle 0 0 0 0 0 0 false in
  let pb := mkParticle 20 0 20 0 0 0 false in
  let ps := [pa; pb] in
  let c1 := markWeak SETTINGS (1.8 * 0.85) (1000 + 450) c in
  weakenOne SETTINGS (fun _ => 1 / 2) 1000 10 0 true ps 0 c
  = (fst (forceBreak SETTINGS ps c1), 0%nat, setBroken true c1).
Proof.
  intros c pa pb ps c1.
  destruct (press_tears SETTINGS (fun _ => 1 / 2) 1000 10 0 ps 0 c pa pb
              ((0 + 20) * 0.5) ((0 + 0) * 0.5)) as (H & _).
  - reflexivity.
  - reflexivity.
  - reflexivity.
  - reflexivity.
  - simpl. unfold Rmin. destruct (Rle_dec 24 60); lra.
  - replace ((0 + 20) * 0.5 - 10) with 0 by lra.
    replace ((0 + 0) * 0.5 - 0) with 0 by lra.
    rewrite hypot_of_zero. simpl. unfold Rmin. destruct (Rle_dec 24 60); lra.
  - apply H. unfold currentDistance. simpl. rewrite hypot_axis, orEps_pos by lra. lra.
Defined.

Lemma pulse_strength_decays_witness :
  let pu := mkPulse 100 100 3000 90 0 in
  let p := mkParticle 130 140 130 140 0 0 false in
  Rabs (fst (pulseAccel SETTINGS 10 pu p)) <= Rabs 3000
  /\ fst (pulseAccel SETTINGS (10 + 650) pu p) = fst (pulseAccel SETTINGS 10 pu p) / 2.
Proof.
  intros pu p.
  destruct (pulse_strength_decays SETTINGS 10 pu p) as (H1 & H2 & _).
  - simpl. lra.
  - simpl. lra.
  - split; [apply H1; simpl; lra|exact H2].
Defined.


Section Resizing.
Variable cfg : Settings.
Variable random : nat -> R.

Lemma floor_bounds (v : R) : IZR (Int_part v) <= v < IZR (Int_part v) + 1.
Proof.
destruct (base_fp v) as [H1 H2].
unfold frac_part in H1, H2.
lra.
Qed.

Lemma pixelRatio_bounds (d : R) :
  1 <= clamp (if Req_dec_T d 0 then 1 else d) 1 2 <= 2.
Proof.
apply clamp_between.
lra.
Qed.

(** Extra X15. A second resize with the same display size changes nothing:
    the first one leaves the canvas at the display size, and a canvas that
    already has it keeps its lattice (no rebuild, no random number read). *)
Theorem resize_settles (devicePixelRatio clientWidth clientHeight : R) (st : R * R * Sim) :
  let st' := resizeCanvasToDisplaySize cfg random devicePixelRatio clientWidth clientHeight st in
  (fst (fst st'), snd (fst st')) = displaySize devicePixelRatio clientWidth clientHeight
  /\ resizeCanvasToDisplaySize cfg random devicePixelRatio clientWidth clientHeight st' = st'
  /\ ((fst (fst st), snd (fst st)) = displaySize devicePixelRatio clientWidth clientHeight ->
      st' = st).
Proof.
destruct st as [[cw ch] s].
cbv zeta.
unfold resizeCanvasToDisplaySize.
destruct (displaySize devicePixelRatio clientWidth clientHeight) as [w h] eqn:Hd.
destruct (Req_dec_T cw w) as [Hw|Hw]; [destruct (Req_dec_T ch h) as [Hh|Hh]|].
- subst cw ch. cbn [fst snd].
  destruct (Req_dec_T w w); [|done].
  destruct (Req_dec_T h h); done.
- cbn [fst snd].
  destruct (Req_dec_T w w); [|done].
  destruct (Req_dec_T h h); [|done].
  split; [done|]. split; [done|]. intros [= _ E]. done.
- cbn [fst snd].
  destruct (Req_dec_T w w); [|done].
  destruct (Req_dec_T h h); [|done].
  split; [done|]. split; [done|]. intros [= E _]. done.
Qed.

(** Extra X16. The canvas gets between one and two pixels per unit of
    client size, rounded down: for a client size that is not negative the
    new size is a whole number above size - 1 and at most twice the size. *)
Theorem displaySize_bounds (devicePixelRatio clientWidth clientHeight : R) :
  0 <= clientWidth ->
  0 <= clientHeight ->
  let '(width, height) := displaySize devicePixelRatio clientWidth clientHeight in
  (exists m n : Z, width = IZR m /\ height = IZR n)
  /\ clientWidth - 1 < width <= 2 * clientWidth
  /\ clientHeight - 1 < height <= 2 * clientHeight.
Proof.
intros Hw Hh.
unfold displaySize.
cbv zeta.
pose proof (pixelRatio_bounds devicePixelRatio) as Hd.
set (dpr := clamp _ 1 2) in *.
pose proof (floor_bounds (clientWidth * dpr)) as H1.
pose proof (floor_bounds (clientHeight * dpr)) as H2.
split; [eexists _, _; done|].
split; nra.
Qed.

End Resizing.

Lemma displaySize_bounds_witness :
  let '(width, height) := displaySize 1.5 800 600 in
  (exists m n : Z, width = IZR m /\ height = IZR n)
  /\ 800 - 1 < width <= 2 * 800
  /\ 600 - 1 < height <= 2 * 600.
Proof.
apply (displaySize_bounds 1.5 800 600); lra.
Defined.

Section CandleRanges.
Import CandleJar.
Variable random : nat -> R.

Lemma jar_clamp_range (v lo hi : R) : lo <= hi -> lo <= CandleJar.clamp v lo hi <= hi.
Proof.
intros H. unfold CandleJar.clamp, Rmax, Rmin.
repeat destruct (Rle_dec _ _); lra.
Qed.

Lemma jar_clamp_inside (v lo hi : R) : lo <= v <= hi -> CandleJar.clamp v lo hi = v.
Proof.
intros H. unfold CandleJar.clamp, Rmax, Rmin.
repeat destruct (Rle_dec _ _); lra.
Qed.

Lemma jar_clamp_le (v lo hi : R) : lo <= hi -> lo <= v -> CandleJar.clamp v lo hi <= v.
Proof.
intros H H'. unfold CandleJar.clamp, Rmax, Rmin.
repeat destruct (Rle_dec _ _); lra.
Qed.

Lemma jar_clamp_ge (v lo hi : R) : lo <= hi -> v <= hi -> v <= CandleJar.clamp v lo hi.
Proof.
intros H H'. unfold CandleJar.clamp, Rmax, Rmin.
repeat destruct (Rle_dec _ _); lra.
Qed.

Lemma lerp_between (a b t : R) :
  0 <= t <= 1 -> Rmin a b <= lerp a b t <= Rmax a b.
Proof.
intros Ht. unfold lerp, Rmin, Rmax.
destruct (Rle_dec a b); nra.
Qed.

Lemma step_keeps_ranges (dt : R) (s : State) :
  inRange s ->
  0 <= dt * speed s ->
  1.2 * (dt * speed s) <= 1 ->
  inRange (step random dt s).
Proof.
intros (Ho & Ht & Hb & Hp & Hw) H0 H1.
unfold inRange, step.
cbn [oxygenInside temperatureInside basinWaterLevel jarPlaceAnim waterRise].
set (simDt := dt * speed s) in *.
split; [|split; [|split; [|split]]].
- destruct (isLit s); [|exact Ho].
  destruct (jarPlaced s); apply jar_clamp_range; lra.
- apply jar_clamp_range; lra.
- destruct (jarPlaced s); [|exact Hb].
  apply jar_clamp_range; lra.
- destruct (Rlt_dec _ _); [|exact Hp].
  destruct (_ || _); [|exact Hp].
  apply jar_clamp_range; lra.
- match goal with |- _ <= lerp _ ?t _ <= _ => assert (0 <= t <= 1) as Htr end.
  { destruct (jarPlaced s); [|lra]. apply jar_clamp_range; lra. }
  match goal with |- _ <= lerp ?a ?t ?u <= _ =>
    pose proof (lerp_between a t u ltac:(lra)) as Hl; revert Hl; generalize (lerp a t u)
  end.
  intros v. unfold Rmin, Rmax. destruct (Rle_dec _ _); lra.
Qed.

(** Extra X17. A frame keeps the numbers of the scene in their ranges:
    with a speed between 0 and 16 and a time stamp that is not before the
    last one, oxygen and the jar animation stay in [0,1], the temperature
    in [0.8,1.25], the basin level in [0.05,1] and the water rise in
    [0,1]; the simulated time advances by at most 0.05 * speed. *)
Theorem tick_keeps_ranges (ts : R) (s : State) :
  inRange s ->
  0 <= speed s <= 16 ->
  lastTs s = 0 \/ lastTs s <= ts ->
  inRange (tick random ts s)
  /\ lastTs (tick random ts s) = ts
  /\ time s <= time (tick random ts s) <= time s + 0.05 * speed s.
Proof.
intros Hr Hs Hts.
unfold tick.
set (last0 := if Req_dec_T (lastTs s) 0 then ts else lastTs s).
set (dt := Rmin 0.05 ((ts - last0) / 1000)).
assert (0 <= dt <= 0.05) as Hdt.
{ assert (last0 <= ts) as Hl.
  { unfold last0. destruct (Req_dec_T _ _); lra. }
  unfold dt, Rmin. destruct (Rle_dec _ _); lra. }
cbv zeta.
split; [|split].
- apply step_keeps_ranges.
  + exact Hr.
  + cbn [speed]. nra.
  + cbn [speed]. nra.
- reflexivity.
- cbn [step time speed]. nra.
Qed.

End CandleRanges.

Section CandleFlames.
Import CandleJar.
Variable random : nat -> R.

Lemma burnFrom_Forall2 (P : Candle -> Candle -> Prop) (placed : bool) (oxygen : R) :
  (forall k c, P c (burnCandle placed oxygen (random k) c)) ->
  forall cs k, Forall2 P cs (burnFrom random placed oxygen k cs).
Proof.
intros HP cs.
induction cs as [|c cs IH]; intros k; cbn [burnFrom]; constructor; auto.
Qed.

Lemma step_candles_Forall2 (P : Candle -> Candle -> Prop) (dt : R) (s : State) :
  (forall k c, P c (burnCandle (jarPlaced s) (oxygenInside s) (random k) c)) ->
  (forall c, P c (coolCandle c)) ->
  Forall2 P (candles s) (candles (step random dt s)).
Proof.
intros Hb Hc.
unfold step. cbn [candles].
destruct (isLit s).
- by apply burnFrom_Forall2.
- apply Forall2_fmap_r, Forall_Forall2_diag, Forall_forall. auto.
Qed.

Lemma filter_lit_none (cs : list Candle) :
  Forall (fun c => lit c = false) cs -> List.filter lit cs = [].
Proof.
induction 1 as [|c cs Hc _ IH]; [done|].
cbn [List.filter]. by rewrite Hc.
Qed.

Lemma step_lit (dt : R) (s : State) :
  Forall2 (fun c c' => sameCandle c c' /\ lit c' = lit c && negb (smothered s))
          (candles s) (candles (step random dt s)).
Proof.
unfold step, smothered. cbn [candles].
destruct (isLit s) eqn:Hlit.
- apply burnFrom_Forall2. intros u c.
  split; [done|].
  unfold burnCandle. cbn [lit andb].
  destruct (Rle_dec _ _) as [Ho|Ho];
    destruct (lit c), (jarPlaced s); done.
- apply Forall2_fmap_r, Forall_Forall2_diag, Forall_forall.
  intros c _. split; [done|].
  cbn [coolCandle lit andb negb]. by rewrite andb_true_r.
Qed.

Lemma step_smothers (dt : R) (s : State) :
  smothered s = true -> litCount (step random dt s) = 0%nat.
Proof.
intros Hsm.
pose proof (step_lit dt s) as HF.
unfold litCount.
rewrite filter_lit_none; [done|].
rewrite Hsm in HF.
revert HF. generalize (candles (step random dt s)).
induction (candles s) as [|c cs IH]; intros l HF; inversion HF; subst; constructor.
- destruct H1 as [_ ->]. by rewrite andb_false_r.
- by apply IH.
Qed.

(** Extra X18. A step leaves every candle in its place and lights none;
    a burning candle goes out exactly when the scene is lit, the jar is on
    and the oxygen is at 3 percent or less, and then all of them go out in
    that step. *)
Theorem step_puts_out (dt : R) (s : State) :
  Forall2 (fun c c' => sameCandle c c' /\ lit c' = lit c && negb (smothered s))
          (candles s) (candles (step random dt s))
  /\ (smothered s = true -> litCount (step random dt s) = 0%nat).
Proof.
split.
- apply step_lit.
- apply step_smothers.
Qed.

(** Extra X19. The brightness of a flame stays between 0 and 1.3 (the
    random numbers being in [0,1)), and the flame of a candle that does
    not burn fades by a fixed factor in each step: 0.9 in a lit scene, 0.8
    otherwise. *)
Theorem flame_brightness (dt : R) (s : State) :
  (forall n, 0 <= random n < 1) ->
  Forall (fun c => 0 <= flame c <= 1.3) (candles s) ->
  Forall (fun c => 0 <= flame c <= 1.3) (candles (step random dt s))
  /\ Forall2 (fun c c' => lit c = false ->
                flame c' = (if isLit s then 0.9 else 0.8) * flame c)
             (candles s) (candles (step random dt s)).
Proof.
intros Hr Hf.
split.
- assert (Forall2 (fun c c' => 0 <= flame c <= 1.3 -> 0 <= flame c' <= 1.3)
            (candles s) (candles (step random dt s))) as HF.
  { apply step_candles_Forall2.
    - intros k c Hc.
      unfold burnCandle. cbn [flame].
      pose proof (Hr k) as Hu.
      revert Hu. generalize (random k). intros u Hu.
      pose proof (jar_clamp_range (oxygenInside s) 0 1 ltac:(lra)) as Ho.
      revert Ho. generalize (CandleJar.clamp (oxygenInside s) 0 1). intros o Ho.
      unfold lerp.
      destruct (lit c); [|lra].
      assert (0 <= (0.7 + u * 0.6) * o <= 1.3) as Hfl; [|lra].
      split; nra.
    - intros c Hc. cbn [coolCandle flame]. unfold lerp. lra. }
  revert Hf HF. generalize (candles (step random dt s)).
  induction (candles s) as [|c cs IH]; intros l Hf HF; inversion HF; subst; constructor.
  + inversion Hf; auto.
  + inversion Hf; subst. by apply IH.
- unfold step. cbn [candles].
  destruct (isLit s).
  + apply burnFrom_Forall2.
    intros u c Hc. unfold burnCandle. cbn [flame]. rewrite Hc.
    unfold lerp. lra.
  + apply Forall2_fmap_r, Forall_Forall2_diag, Forall_forall.
    intros c _ Hc. cbn [coolCandle flame]. unfold lerp. lra.
Qed.

End CandleFlames.

Lemma flame_brightness_witness :
  let random := fun _ : nat => 0.5 in
  let s := CandleJar.lightCandles
             (CandleJar.reset CandleJar.fallbackDefaults None None None
                (CandleJar.initialState CandleJar.fallbackDefaults)) in
  Forall (fun c => 0 <= CandleJar.flame c <= 1.3)
         (CandleJar.candles (CandleJar.step random 0.016 s))
  /\ Forall2 (fun c c' => CandleJar.lit c = false ->
                CandleJar.flame c' = (if CandleJar.isLit s then 0.9 else 0.8) * CandleJar.flame c)
             (CandleJar.candles s) (CandleJar.candles (CandleJar.step random 0.016 s)).
Proof.
cbv zeta.
apply (flame_brightness (fun _ => 0.5)).
- intros n. lra.
- repeat constructor; cbn; lra.
Defined.

Section CandleLayout.
Import CandleJar.

Lemma placeFrom_lookup (cs : list Candle) (k i : nat) (startX spacing : R) (c : Candle) :
  cs !! i = Some c ->
  placeFrom k startX spacing cs !! i
  = Some (mkCandle (startX + INR (k + i) * spacing) (y c) (height c) (lit c) (flame c)).
Proof.
revert k i.
induction cs as [|c0 cs IH]; intros k i Hi; [done|].
destruct i as [|i]; cbn [placeFrom].
- injection Hi as ->. by rewrite Nat.add_0_r.
- change (placeFrom (S k) startX spacing cs !! i
          = Some (mkCandle (startX + INR (k + S i) * spacing) (y c) (height c) (lit c)
                           (flame c))).
  rewrite (IH (S k) i Hi).
  by replace (S k + i)%nat with (k + S i)%nat by lia.
Qed.

Lemma placeFrom_length (cs : list Candle) (k : nat) (startX spacing : R) :
  length (placeFrom k startX spacing cs) = length cs.
Proof.
revert k.
induction cs as [|c0 cs IH]; intros k; [done|].
cbn [placeFrom length]. by rewrite IH.
Qed.

Lemma newCandles_lookup (n i : nat) :
  (i < n)%nat -> map newCandle (seq 0 n) !! i = Some (newCandle i).
Proof.
intros Hi.
change (map newCandle (seq 0 n)) with (newCandle <$> seq 0 n).
rewrite list_lookup_fmap, lookup_seq_lt by done.
done.
Qed.

Lemma candle_height (i : nat) :
  180 + INR (i mod 2) * 10 = if Nat.even i then 180 else 190.
Proof.
pose proof (Nat.mod_upper_bound i 2 ltac:(lia)) as Hlt.
pose proof (Nat.even_spec i) as He.
destruct (Nat.even i).
- destruct (proj1 He eq_refl) as [k ->].
  replace ((2 * k) mod 2)%nat with 0%nat.
  + cbn [INR]. lra.
  + symmetry. rewrite Nat.mul_comm. apply Nat.Div0.mod_mul.
- destruct (i mod 2)%nat as [|[|m]] eqn:Em; [|cbn [INR]; lra|lia].
  exfalso.
  assert (false = true) as Hf; [|done].
  apply He. exists (i / 2)%nat.
  pose proof (Nat.div_mod_eq i 2). lia.
Qed.

Lemma initCandles_lookup (count : Z) (s : State) (i : nat) :
  let n := Z.to_nat count in
  let centerX := if Req_dec_T (jarX s) 0 then worldWidth * 0.5 else jarX s in
  (i < n)%nat ->
  candles (initCandles count s) !! i
  = Some (mkCandle (centerX + (INR i - (INR n - 1) / 2) * 46) groundY
                   (180 + INR (i mod 2) * 10) false 0).
Proof.
intros n centerX Hi.
unfold initCandles, layoutCandlesAround. cbn [candles setCandles].
rewrite (placeFrom_lookup _ 0 i _ _ (newCandle i)) by by apply newCandles_lookup.
rewrite length_map, length_seq.
cbn [newCandle y height lit flame Nat.add].
fold n. fold centerX.
f_equal. f_equal. lra.
Qed.

Lemma initCandles_length (count : Z) (s : State) :
  length (candles (initCandles count s)) = Z.to_nat count.
Proof.
unfold initCandles, layoutCandlesAround. cbn [candles setCandles].
by rewrite placeFrom_length, length_map, length_seq.
Qed.

(** Extra X20. After a reset the candles stand in a row centred on the
    middle of the world (x = 480), 46 apart, on the ground, alternately 180
    and 190 high and unlit: candle i of n is at 480 + (i - (n-1)/2) * 46,
    so the row is mirrored about the centre; a count that is missing or
    zero gives the default count. *)
Theorem reset_layout (dflt : Defaults) (count diameter : option Z) (speedValue : option R)
        (s : State) (i : nat) :
  let n := Z.to_nat (orDefaultZ count (candleCount dflt)) in
  let s' := reset dflt count diameter speedValue s in
  (i < n)%nat ->
  length (candles s') = n
  /\ candles s' !! i
     = Some (mkCandle (480 + (INR i - (INR n - 1) / 2) * 46) 480
                      (if Nat.even i then 180 else 190) false 0)
  /\ (exists c c', candles s' !! i = Some c /\ candles s' !! (n - 1 - i)%nat = Some c'
                   /\ x c + x c' = 960)
  /\ litCount s' = 0%nat.
Proof.
intros n s' Hi.
set (s1 := mkState (candles s) (jarPlaced s) (worldWidth * 0.5) (jarDiameter s)
                   (jarPlaceAnim s) (oxygenInside s) (temperatureInside s) (waterRise s)
                   (isLit s) (speed s) (time s) (basinWaterLevel s) (lastTs s)
                   (randomPos s)).
assert (candles s' = candles (initCandles (orDefaultZ count (candleCount dflt)) s1)) as Hc
  by done.
assert (forall j, (j < n)%nat ->
          candles s' !! j
          = Some (mkCandle (480 + (INR j - (INR n - 1) / 2) * 46) 480
                           (if Nat.even j then 180 else 190) false 0)) as Hl.
{ intros j Hj. rewrite Hc.
  rewrite initCandles_lookup by done.
  fold n. cbn [jarX s1]. unfold worldWidth, groundY.
  destruct (Req_dec_T (960 * 0.5) 0) as [E|_]; [lra|].
  f_equal. f_equal; [lra|].
  apply candle_height. }
assert (length (candles s') = n) as Hn.
{ rewrite Hc. apply initCandles_length. }
split; [exact Hn|].
split; [by apply Hl|].
split.
- eexists _, _.
  split; [by apply Hl|].
  split; [apply Hl; lia|].
  cbn [x].
  replace (n - 1 - i)%nat with (n - S i)%nat by lia.
  rewrite minus_INR, S_INR by lia. lra.
- unfold litCount. rewrite filter_lit_none; [done|].
  apply Forall_lookup. intros j c Hj.
  pose proof (lookup_lt_Some _ _ _ Hj) as Hlt.
  rewrite Hn in Hlt.
  rewrite (Hl j Hlt) in Hj. by injection Hj as <-.
Qed.

End CandleLayout.

Lemma reset_layout_witness :
  let s' := CandleJar.reset CandleJar.fallbackDefaults None None None
              (CandleJar.initialState CandleJar.fallbackDefaults) in
  length (CandleJar.candles s') = 3%nat
  /\ CandleJar.candles s' !! 1%nat
     = Some (CandleJar.mkCandle (480 + (INR 1 - (INR 3 - 1) / 2) * 46) 480 190 false 0)
  /\ (exists c c', CandleJar.candles s' !! 1%nat = Some c
                   /\ CandleJar.candles s' !! (3 - 1 - 1)%nat = Some c'
                   /\ CandleJar.x c + CandleJar.x c' = 960)
  /\ CandleJar.litCount s' = 0%nat.
Proof.
apply (reset_layout CandleJar.fallbackDefaults None None None
         (CandleJar.initialState CandleJar.fallbackDefaults) 1).
cbn. lia.
Defined.

Section UnderTheJar.
Import CandleJar.
Variable random : nat -> R.

Lemma jarFactor_bounds (d : R) : 0.5 <= CandleJar.clamp (320 / (d + 1e-5)) 0.5 1.5 <= 1.5.
Proof.
apply jar_clamp_range. lra.
Qed.

Lemma litCount_step_le (dt : R) (s : State) :
  (litCount (step random dt s) <= litCount s)%nat.
Proof.
pose proof (step_lit random dt s) as HF.
unfold litCount.
revert HF. generalize (candles (step random dt s)).
induction (candles s) as [|c cs IH]; intros l HF; inversion HF as [|? c' ? l' [_ Hc] HF']; subst.
- done.
- cbn [List.filter]. rewrite Hc.
  specialize (IH _ HF').
  destruct (lit c); cbn [andb]; [|done].
  destruct (negb _); cbn [length]; lia.
Qed.

Lemma steps_add (dt : R) (n m : nat) (s : State) :
  steps random dt (n + m) s = steps random dt m (steps random dt n s).
Proof.
revert s.
induction n as [|n IH]; intros s; [done|].
cbn [Nat.add steps]. apply IH.
Qed.

Lemma steps_S (dt : R) (n : nat) (s : State) :
  steps random dt (S n) s = step random dt (steps random dt n s).
Proof.
replace (S n) with (n + 1)%nat by lia.
by rewrite steps_add.
Qed.

Lemma litCount_steps_le (dt : R) (n : nat) (s : State) :
  (litCount (steps random dt n s) <= litCount s)%nat.
Proof.
induction n as [|n IH]; [done|].
rewrite steps_S.
pose proof (litCount_step_le dt (steps random dt n s)). lia.
Qed.

(** The oxygen after a step of a lit scene under the jar. *)
Lemma oxygen_under_jar (dt : R) (s : State) :
  isLit s = true ->
  jarPlaced s = true ->
  oxygenInside (step random dt s)
  = CandleJar.clamp (oxygenInside s
                     - INR (litCount s) * 0.08 * (dt * speed s)
                       * CandleJar.clamp (320 / (jarDiameter s + 1e-5)) 0.5 1.5) 0 1.
Proof.
intros Hl Hp.
unfold step. cbn [oxygenInside]. by rewrite Hl, Hp.
Qed.

Lemma die_within (dt : R) (N : nat) :
  forall s,
  isLit s = true ->
  jarPlaced s = true ->
  0 < dt * speed s ->
  oxygenInside s <= 0.03 + INR N * (0.04 * (dt * speed s)) ->
  exists n, (n <= S N)%nat /\ litCount (steps random dt n s) = 0%nat.
Proof.
induction N as [|N IH]; intros s Hl Hp Hdt Ho.
- exists 1%nat. split; [lia|].
  cbn [steps]. apply step_smothers.
  unfold smothered. rewrite Hl, Hp.
  cbn [INR] in Ho.
  destruct (Rle_dec _ _); [done|lra].
- destruct (Nat.eq_dec (litCount s) 0%nat) as [Hz|Hz].
  { exists 0%nat. split; [lia|done]. }
  destruct (Rle_dec (oxygenInside s) 0.03) as [Hlow|Hhigh].
  { exists 1%nat. split; [lia|].
    cbn [steps]. apply step_smothers.
    unfold smothered. rewrite Hl, Hp.
    destruct (Rle_dec _ _); done. }
  destruct (IH (step random dt s)) as (n & Hn & Hout).
  + done.
  + done.
  + done.
  + rewrite oxygen_under_jar by done.
    change (speed (step random dt s)) with (speed s).
    pose proof (jarFactor_bounds (jarDiameter s)) as Hj.
    revert Hj. generalize (CandleJar.clamp (320 / (jarDiameter s + 1e-5)) 0.5 1.5).
    intros jf Hj.
    assert (1 <= INR (litCount s)) as Hc.
    { replace 1 with (INR 1) by done. apply le_INR. lia. }
    rewrite S_INR in Ho.
    assert (0.04 * (dt * speed s)
            <= INR (litCount s) * 0.08 * (dt * speed s) * jf) as Hd.
    { assert (0.5 <= INR (litCount s) * jf) as Hcj by nra.
      replace (INR (litCount s) * 0.08 * (dt * speed s) * jf)
        with (0.08 * (dt * speed s) * (INR (litCount s) * jf)) by ring.
      nra. }
    assert (0 <= INR N) as HN by apply pos_INR.
    unfold CandleJar.clamp, Rmax, Rmin.
    repeat destruct (Rle_dec _ _); nra.
  + exists (S n). split; [lia|]. exact Hout.
Qed.

(** Extra X21. Under the jar the flames go out: in a lit scene with the
    jar on and time running forward, all candles are out after at most
    N + 1 steps, N steps of 0.04 * dt * speed covering the oxygen, and none
    burns again in any later step. *)
Theorem flames_die_under_jar (dt : R) (s : State) (N : nat) :
  isLit s = true ->
  jarPlaced s = true ->
  0 < dt * speed s ->
  oxygenInside s <= INR N * (0.04 * (dt * speed s)) ->
  exists n, (n <= S N)%nat
            /\ forall m, (n <= m)%nat -> litCount (steps random dt m s) = 0%nat.
Proof.
intros Hl Hp Hdt Ho.
destruct (die_within dt N s Hl Hp Hdt ltac:(lra)) as (n & Hn & Hout).
exists n. split; [done|].
intros m Hm.
replace m with (n + (m - n))%nat by lia.
rewrite steps_add.
pose proof (litCount_steps_le dt (m - n) (steps random dt n s)). lia.
Qed.

(** Extra X22. Under the jar a lit scene only uses oxygen up: each step
    takes 0.08 * dt * speed per burning candle, times a jar factor between
    0.5 and 1.5, stopping at zero, and the basin level does not rise. *)
Theorem jar_consumes (dt : R) (s : State) :
  inRange s ->
  isLit s = true ->
  jarPlaced s = true ->
  0 <= dt * speed s ->
  exists jarFactor,
    0.5 <= jarFactor <= 1.5
    /\ oxygenInside (step random dt s)
       = Rmax 0 (oxygenInside s - INR (litCount s) * 0.08 * (dt * speed s) * jarFactor)
    /\ oxygenInside (step random dt s) <= oxygenInside s
    /\ basinWaterLevel (step random dt s) <= basinWaterLevel s.
Proof.
intros (Ho & Ht & Hb & Hpa & Hw) Hl Hp Hdt.
exists (CandleJar.clamp (320 / (jarDiameter s + 1e-5)) 0.5 1.5).
split; [apply jarFactor_bounds|].
rewrite oxygen_under_jar by done.
pose proof (jarFactor_bounds (jarDiameter s)) as Hj.
revert Hj. generalize (CandleJar.clamp (320 / (jarDiameter s + 1e-5)) 0.5 1.5).
intros jf Hj.
assert (0 <= INR (litCount s)) as Hc by apply pos_INR.
assert (0 <= INR (litCount s) * 0.08 * (dt * speed s) * jf) as Huse.
{ apply Rmult_le_pos; [apply Rmult_le_pos; [apply Rmult_le_pos|]|]; lra. }
split; [|split].
- unfold CandleJar.clamp, Rmax, Rmin.
  repeat destruct (Rle_dec _ _); lra.
- unfold CandleJar.clamp, Rmax, Rmin.
  repeat destruct (Rle_dec _ _); lra.
- unfold step. cbn [basinWaterLevel]. rewrite Hp.
  match goal with |- CandleJar.clamp (_ - ?d) _ _ <= _ =>
    assert (0 <= d) as Hd; [|revert Hd; generalize d; intros drain Hd]
  end.
  { apply Rmult_le_pos; [apply Rmult_le_pos|]; [apply Rmax_l|lra|lra]. }
  unfold CandleJar.clamp, Rmax, Rmin.
  repeat destruct (Rle_dec _ _); lra.
Qed.

(** Extra X23. Without the jar nothing is used up: the oxygen does not
    fall and stays at most 1, no candle goes out, the basin keeps its
    level, the water rise shrinks by the factor 1 - 1.2 * dt * speed, and
    the temperature moves no further from 1. *)
Theorem open_air (dt : R) (s : State) :
  inRange s ->
  jarPlaced s = false ->
  0 <= dt * speed s ->
  1.2 * (dt * speed s) <= 1 ->
  oxygenInside s <= oxygenInside (step random dt s) <= 1
  /\ litCount (step random dt s) = litCount s
  /\ basinWaterLevel (step random dt s) = basinWaterLevel s
  /\ waterRise (step random dt s) = waterRise s * (1 - 1.2 * (dt * speed s))
  /\ Rabs (temperatureInside (step random dt s) - 1) <= Rabs (temperatureInside s - 1).
Proof.
intros (Ho & Ht & Hb & Hpa & Hw) Hp Hdt Hdt'.
split; [|split; [|split; [|split]]].
- unfold step. cbn [oxygenInside]. rewrite Hp.
  destruct (isLit s); [|lra].
  unfold lerp, CandleJar.clamp, Rmax, Rmin.
  repeat destruct (Rle_dec _ _); nra.
- pose proof (step_lit random dt s) as HF.
  unfold smothered in HF. rewrite Hp, andb_false_r in HF. cbn [andb negb] in HF.
  unfold litCount.
  revert HF. generalize (candles (step random dt s)).
  induction (candles s) as [|c cs IH]; intros l HF;
    inversion HF as [|? c' ? l' [_ Hc] HF']; subst; [done|].
  cbn [List.filter]. rewrite Hc, andb_true_r.
  specialize (IH _ HF').
  destruct (lit c); cbn [length]; lia.
- unfold step. cbn [basinWaterLevel]. by rewrite Hp.
- unfold step. cbn [waterRise]. rewrite Hp. unfold lerp. lra.
- unfold step. cbn [temperatureInside]. rewrite Hp.
  unfold CandleJar.clamp, Rmax, Rmin, Rabs.
  repeat destruct (Rle_dec _ _); repeat destruct (Rcase_abs _); nra.
Qed.

End UnderTheJar.

Lemma flames_die_under_jar_witness :
  let s := CandleJar.toggleJar
             (CandleJar.lightCandles
                (CandleJar.reset CandleJar.fallbackDefaults None None None
                   (CandleJar.initialState CandleJar.fallbackDefaults))) in
  exists n, (n <= 10)%nat
            /\ forall m, (n <= m)%nat ->
                 CandleJar.litCount (CandleJar.steps (fun _ => 0.5) 1 m s) = 0%nat.
Proof.
cbv zeta.
apply (flames_die_under_jar (fun _ => 0.5) 1 _ 9).
- reflexivity.
- reflexivity.
- cbn. lra.
- cbn. lra.
Defined.

Lemma jar_consumes_witness :
  let s := CandleJar.toggleJar
             (CandleJar.lightCandles
                (CandleJar.reset CandleJar.fallbackDefaults None None None
                   (CandleJar.initialState CandleJar.fallbackDefaults))) in
  exists jarFactor,
    0.5 <= jarFactor <= 1.5
    /\ CandleJar.oxygenInside (CandleJar.step (fun _ => 0.5) 0.016 s)
       = Rmax 0 (CandleJar.oxygenInside s
                 - INR (CandleJar.litCount s) * 0.08 * (0.016 * CandleJar.speed s) * jarFactor)
    /\ CandleJar.oxygenInside (CandleJar.step (fun _ => 0.5) 0.016 s)
       <= CandleJar.oxygenInside s
    /\ CandleJar.basinWaterLevel (CandleJar.step (fun _ => 0.5) 0.016 s)
       <= CandleJar.basinWaterLevel s.
Proof.
cbv zeta.
apply (jar_consumes (fun _ => 0.5) 0.016).
- unfold CandleJar.inRange. cbn. lra.
- reflexivity.
- reflexivity.
- cbn. lra.
Defined.

Lemma open_air_witness :
  let s := CandleJar.lightCandles
             (CandleJar.reset CandleJar.fallbackDefaults None None None
                (CandleJar.initialState CandleJar.fallbackDefaults)) in
  let s' := CandleJar.step (fun _ => 0.5) 0.016 s in
  CandleJar.oxygenInside s <= CandleJar.oxygenInside s' <= 1
  /\ CandleJar.litCount s' = CandleJar.litCount s
  /\ CandleJar.basinWaterLevel s' = CandleJar.basinWaterLevel s
  /\ CandleJar.waterRise s' = CandleJar.waterRise s * (1 - 1.2 * (0.016 * CandleJar.speed s))
  /\ Rabs (CandleJar.temperatureInside s' - 1) <= Rabs (CandleJar.temperatureInside s - 1).
Proof.
cbv zeta.
apply (open_air (fun _ => 0.5) 0.016).
- unfold CandleJar.inRange. cbn. lra.
- reflexivity.
- cbn. lra.
- cbn. lra.
Defined.

Lemma tick_keeps_ranges_witness :
  let s := CandleJar.toggleJar
             (CandleJar.lightCandles
                (CandleJar.reset CandleJar.fallbackDefaults None None None
                   (CandleJar.initialState CandleJar.fallbackDefaults))) in
  CandleJar.inRange (CandleJar.tick (fun _ => 0.5) 16 s)
  /\ CandleJar.lastTs (CandleJar.tick (fun _ => 0.5) 16 s) = 16
  /\ CandleJar.time s <= CandleJar.time (CandleJar.tick (fun _ => 0.5) 16 s)
     <= CandleJar.time s + 0.05 * CandleJar.speed s.
Proof.
cbv zeta.
apply (tick_keeps_ranges (fun _ => 0.5) 16).
- unfold CandleJar.inRange. cbn. lra.
- cbn. lra.
- left. reflexivity.
Defined.
